(** * GPXSee: Mapsforge style rules and data-file loading

  A shallow embedding of [src/map/mapsforge/style.h] (the [Style::Rule]
  class with its nested [Filter]) and of [src/data/data.cpp] (the [Data]
  constructor and [Data::processData]), followed by the properties
  established about them.

  Conventions
  - [int] is embedded as [Z], [unsigned] as [N]; the embedded code only
    compares, takes minima/maxima and ORs two-bit enumerators, so no
    operation can leave the machine range.
  - [QByteArray] and [QString] are embedded as [string] (a sequence of
    8-bit characters).
  - [QList<T>] / [QVector<T>] are embedded as [list T].
  - [qreal] is embedded as the IEEE-754 datum [spec_float]; the code only
    tests it with [std::isnan]. *)

From Stdlib Require Import ZArith NArith Bool List Ascii Lia.
From Stdlib Require Import Sorted Permutation SpecFloat.
From stdpp Require Import base tactics option list strings.

Local Open Scope Z_scope.

Definition QByteArray := string.
Definition QString := string.
Definition qreal := spec_float.

(** ** [MapData::Tag] *)
Module MapData.
(** Modelled from the spec: [MapData::Tag] of [mapdata.h], which is not
    among the sources.  The spec calls a tag a (key, value) pair; the two
    fields are the ones the filter code reads ([tags.at(j).key], compared
    with an [unsigned], and [tags.at(j).value], compared with a
    [QByteArray]). *)
Record Tag : Type := mkTag { key : N; value : QByteArray }.
End MapData.

(** ** [Range] *)
Module Range.
(** Modelled from the spec: the [Range] class of [common/range.h], which is
    not among the sources.  The spec describes it as an "inclusive zoom
    range [min,max]"; [style.h] uses the constructor [Range(min, max)] and
    the accessors [min()], [max()], [setMin()], [setMax()]. *)
Record t : Type := Range { min : Z; max : Z }.

(** Modelled from the spec: [Range::setMin] and [Range::setMax] replace one
    bound and keep the other. *)
Definition setMin (m : Z) (r : t) : t := Range m (max r).
Definition setMax (m : Z) (r : t) : t := Range (min r) m.

(** Modelled from the spec: [Range::contains], containment inclusive at
    both bounds. *)
Definition contains (r : t) (z : Z) : bool := (min r <=? z) && (z <=? max r).
End Range.

(** ** [Style::Rule::Filter] *)
Module Filter.
Import MapData.

Record t : Type := mkFilter {
  _keys : list N;
  _vals : list QByteArray;
  _neg : bool
}.

(** [Filter() : _neg(false) {}] *)
Definition Filter : t := mkFilter [] [] false.

(** Inner loop of [keyMatches]: [for (j = 0; j < tags.size(); j++)] with
    the early [return true]; the result tells whether the function
    returned from inside this loop. *)
Fixpoint keyMatches_tags (key : N) (tags : list Tag) : bool :=
  match tags with
  | [] => false
  | tg :: tags' =>
      if (key =? 0)%N || (key =? MapData.key tg)%N then true
      else keyMatches_tags key tags'
  end.

(** Outer loop of [keyMatches]: [for (i = 0; i < _keys.size(); i++)]. *)
Fixpoint keyMatches_keys (keys : list N) (tags : list Tag) : bool :=
  match keys with
  | [] => false
  | k :: keys' =>
      if keyMatches_tags k tags then true else keyMatches_keys keys' tags
  end.

Definition keyMatches (f : t) (tags : list Tag) : bool :=
  keyMatches_keys (_keys f) tags.

(** Inner loop of [valueMatches]. *)
Fixpoint valueMatches_tags (ba : QByteArray) (tags : list Tag) : bool :=
  match tags with
  | [] => false
  | tg :: tags' =>
      if (String.length ba =? 0)%nat || String.eqb ba (MapData.value tg)
      then true
      else valueMatches_tags ba tags'
  end.

(** Outer loop of [valueMatches]. *)
Fixpoint valueMatches_vals (vals : list QByteArray) (tags : list Tag) : bool :=
  match vals with
  | [] => false
  | ba :: vals' =>
      if valueMatches_tags ba tags then true else valueMatches_vals vals' tags
  end.

Definition valueMatches (f : t) (tags : list Tag) : bool :=
  valueMatches_vals (_vals f) tags.

(** [Filter::match]; [match] is a keyword, hence the underscore. *)
Definition match_ (f : t) (tags : list Tag) : bool :=
  if _neg f then
    if negb (keyMatches f tags) then true
    else valueMatches f tags
  else keyMatches f tags && valueMatches f tags.

(** [QList<unsigned>::contains(0u)] *)
Definition contains_key (keys : list N) (k : N) : bool :=
  existsb (fun k' => (k' =? k)%N) keys.

(** [QList<QByteArray>::contains(ba)] *)
Definition contains_val (vals : list QByteArray) (ba : QByteArray) : bool :=
  existsb (fun v => String.eqb v ba) vals.

(** [QByteArray()] *)
Definition QByteArray_null : QByteArray := EmptyString.

Definition isTautology (f : t) : bool :=
  negb (_neg f) && contains_key (_keys f) 0%N
    && contains_val (_vals f) QByteArray_null.

(** The spec's notion of a tautology, kept apart from [isTautology] to be
    compared with it: "a non-negated filter whose key-set and value-set are
    both pure wildcards", that is, each set is inhabited and holds nothing
    but the wildcard. *)
Definition pureWildcardTautology (f : t) : bool :=
  negb (_neg f)
  && negb (length (_keys f) =? 0)%nat && forallb (fun k => (k =? 0)%N) (_keys f)
  && negb (length (_vals f) =? 0)%nat
  && forallb (fun v => (String.length v =? 0)%nat) (_vals f).
End Filter.

(** ** [Style::Rule] *)
Module Rule.
Import MapData.

(** [enum Type]; [Type] is a keyword, hence the underscore. *)
Inductive Type_ : Type := AnyType | NodeType | WayType | InvalidType.

Inductive Closed : Type := AnyClosed | YesClosed | NoClosed | InvalidClosed.

(** [static_cast<int>(type)] *)
Definition Type_to_int (ty : Type_) : Z :=
  match ty with
  | AnyType => 0 | NodeType => 1 | WayType => 2 | InvalidType => 3
  end.

(** [static_cast<Type>(n)], for the enumerator values 0..3. *)
Definition Type_of_int (n : Z) : Type_ :=
  match n with
  | 0 => AnyType | 1 => NodeType | 2 => WayType | _ => InvalidType
  end.

Definition Closed_to_int (c : Closed) : Z :=
  match c with
  | AnyClosed => 0 | YesClosed => 1 | NoClosed => 2 | InvalidClosed => 3
  end.

Definition Closed_of_int (n : Z) : Closed :=
  match n with
  | 0 => AnyClosed | 1 => YesClosed | 2 => NoClosed | _ => InvalidClosed
  end.

Record t : Type := mkRule {
  _type : Type_;
  _closed : Closed;
  _zooms : Range.t;
  _filters : list Filter.t
}.

(** [Rule() : _type(AnyType), _closed(AnyClosed), _zooms(0, 127) {}] *)
Definition Rule : t := mkRule AnyType AnyClosed (Range.Range 0 127) [].

Definition setType (type : Type_) (r : t) : t :=
  mkRule (Type_of_int (Z.lor (Type_to_int type) (Type_to_int (_type r))))
         (_closed r) (_zooms r) (_filters r).

(** [qMax] / [qMin] on [int] *)
Definition qMax (a b : Z) : Z := if a <? b then b else a.
Definition qMin (a b : Z) : Z := if b <? a then b else a.

Definition setMinZoom (zoom : Z) (r : t) : t :=
  mkRule (_type r) (_closed r)
         (Range.setMin (qMax zoom (Range.min (_zooms r))) (_zooms r))
         (_filters r).

Definition setMaxZoom (zoom : Z) (r : t) : t :=
  mkRule (_type r) (_closed r)
         (Range.setMax (qMin zoom (Range.max (_zooms r))) (_zooms r))
         (_filters r).

Definition setClosed (closed : Closed) (r : t) : t :=
  mkRule (_type r)
         (Closed_of_int (Z.lor (Closed_to_int closed) (Closed_to_int (_closed r))))
         (_zooms r) (_filters r).

(** [_filters.append(filter)] unless the filter is a tautology. *)
Definition addFilter (filter : Filter.t) (r : t) : t :=
  if negb (Filter.isTautology filter)
  then mkRule (_type r) (_closed r) (_zooms r) (_filters r ++ [filter])
  else r.

(** The calls by which the style compiler narrows a copy of the parent
    rule. *)
Inductive Setter : Type :=
| SetType (type : Type_)
| SetMinZoom (zoom : Z)
| SetMaxZoom (zoom : Z)
| SetClosed (closed : Closed)
| AddFilter (filter : Filter.t).

Definition call (r : t) (c : Setter) : t :=
  match c with
  | SetType type => setType type r
  | SetMinZoom zoom => setMinZoom zoom r
  | SetMaxZoom zoom => setMaxZoom zoom r
  | SetClosed closed => setClosed closed r
  | AddFilter filter => addFilter filter r
  end.

(** A rule after a sequence of such calls, applied first to last. *)
Definition narrowed (r : t) (calls : list Setter) : t := fold_left call calls r.

(** The filters a sequence of calls hands to [addFilter] and that pass its
    [isTautology] test, in call order. *)
Fixpoint appended (calls : list Setter) : list Filter.t :=
  match calls with
  | [] => []
  | AddFilter filter :: calls' =>
      if negb (Filter.isTautology filter) then filter :: appended calls'
      else appended calls'
  | _ :: calls' => appended calls'
  end.
End Rule.

(** ** [Style::Rule::match] *)
Module RuleMatch.
Import MapData Rule.

(** Modelled from the spec: the type-compatibility test of [Rule::match],
    whose body is in [style.cpp] and not among the sources.  The spec says
    that [AnyType] matches everything, that a rule is otherwise node-only or
    way-only, and that the OR of [NodeType] and [WayType] matches neither a
    node nor a way. *)
Definition typeMatches (ruleType type : Type_) : bool :=
  (Type_to_int ruleType =? 0) || (Type_to_int ruleType =? Type_to_int type).

(** Modelled from the spec: the closed-compatibility test of [Rule::match]
    ("closed compatibility analogously"). *)
Definition closedMatches (ruleClosed closed : Closed) : bool :=
  (Closed_to_int ruleClosed =? 0)
  || (Closed_to_int ruleClosed =? Closed_to_int closed).

(** Modelled from the spec: the filter loop of [Rule::match]; every stored
    filter must match, the first failing one ends the loop. *)
Fixpoint filtersMatch (filters : list Filter.t) (tags : list Tag) : bool :=
  match filters with
  | [] => true
  | f :: filters' =>
      if negb (Filter.match_ f tags) then false else filtersMatch filters' tags
  end.

(** Modelled from the spec: [Rule::match(zoom, type, closed, tags)] of
    [style.cpp], which is not among the sources.  The spec fixes the order:
    zoom containment, then type, then closed, then all filters. *)
Definition match_ (r : Rule.t) (zoom : Z) (type : Type_) (closed : Closed)
    (tags : list Tag) : bool :=
  if negb (Range.contains (_zooms r) zoom) then false
  else if negb (typeMatches (_type r) type) then false
  else if negb (closedMatches (_closed r) closed) then false
  else filtersMatch (_filters r) tags.

(** Modelled from the spec: the overload [Rule::match(zoom, closed, tags)]
    used for ways, where the caller's context fixes the type and the
    geometry flag selects [YesClosed] or [NoClosed]. *)
Definition match_way (r : Rule.t) (zoom : Z) (closed : bool)
    (tags : list Tag) : bool :=
  match_ r zoom WayType (if closed then YesClosed else NoClosed) tags.

(** Modelled from the spec: the zoom-only test applied by the label
    queries, which receive no tags. *)
Definition match_zoom (r : Rule.t) (zoom : Z) : bool :=
  Range.contains (_zooms r) zoom.
End RuleMatch.

(** ** The render instructions of a [Style] *)

(** [Style::PathRender], with the [_rule] of its base class [Render].  The
    Qt paint attributes (colours, brush, dash array, cap and join styles)
    play no part in the queries and are left out. *)
Module PathRender.
(** [enum Scale {None, Stroke, All}] *)
Inductive Scale : Type := None | Stroke | All.

Record t : Type := mkPathRender {
  _rule : Rule.t;
  _zOrder : Z;
  _strokeWidth : qreal;
  _area : bool;
  _curve : bool;
  _scale : Scale;
  _dy : qreal
}.

(** [PathRender(rule, zOrder)] *)
Definition PathRender (rule : Rule.t) (zOrder : Z) : t :=
  mkPathRender rule zOrder (S754_zero false) false false Stroke
               (S754_zero false).

Definition rule (p : t) : Rule.t := _rule p.
Definition zOrder (p : t) : Z := _zOrder p.
Definition area (p : t) : bool := _area p.
Definition curve (p : t) : bool := _curve p.
End PathRender.

(** [Style::TextRender], with the [_rule] of its base class [Render]; font
    and colours are left out. *)
Module TextRender.
Record t : Type := mkTextRender {
  _rule : Rule.t;
  _priority : Z;
  _strokeWidth : qreal;
  _key : N
}.

Definition rule (t : t) : Rule.t := _rule t.
Definition strokeWidth (t : t) : qreal := _strokeWidth t.
Definition key (t : t) : N := _key t.
Definition priority (t : t) : Z := _priority t.
End TextRender.

(** ** [Style] *)
Module Style.
Import MapData.

(** The path and label lists of a [Style]; the queries below read
    [_paths] and [_pointLabels]. *)
Record t : Type := mkStyle {
  _paths : list PathRender.t;
  _pathLabels : list TextRender.t;
  _pointLabels : list TextRender.t;
  _areaLabels : list TextRender.t
}.

(** Modelled from the spec: the ascending order of the query results
    (the bodies of the queries are in [style.cpp], not among the sources).
    [insertAscending] puts one instruction into a list that is already in
    ascending order of [rank]; instructions of equal rank keep their list
    order. *)
Fixpoint insertAscending {A : Type} (rank : A -> Z) (x : A) (l : list A)
    : list A :=
  match l with
  | [] => [x]
  | y :: l' =>
      if rank x <=? rank y then x :: y :: l'
      else y :: insertAscending rank x l'
  end.

(** Modelled from the spec: "returned sorted ascending"; the instructions
    are inserted one by one, last to first. *)
Fixpoint sortAscending {A : Type} (rank : A -> Z) (l : list A) : list A :=
  match l with
  | [] => []
  | x :: l' => insertAscending rank x (sortAscending rank l')
  end.

(** Modelled from the spec: the "linear scan of its instruction list" of
    the queries; every instruction whose rule passes [test] is kept, in
    list order. *)
Fixpoint scan {A : Type} (test : A -> bool) (l : list A) : list A :=
  match l with
  | [] => []
  | x :: l' => if test x then x :: scan test l' else scan test l'
  end.

(** Modelled from the spec: [Style::paths(zoom, closed, tags)] of
    [style.cpp], which is not among the sources.  The spec: "a linear scan
    of its instruction list, testing each instruction's owned Rule against
    the given context, and returns all matches", "returned sorted ascending
    by z-order".  The returned pointers are embedded as the instructions
    they point to. *)
Definition paths (s : t) (zoom : Z) (closed : bool) (tags : list Tag)
    : list PathRender.t :=
  sortAscending PathRender.zOrder
    (scan (fun p => RuleMatch.match_way (PathRender.rule p) zoom closed tags)
          (_paths s)).

(** Modelled from the spec: [Style::pointLabels(zoom)] of [style.cpp], which
    is not among the sources; results "returned sorted ascending by
    priority". *)
Definition pointLabels (s : t) (zoom : Z) : list TextRender.t :=
  sortAscending TextRender.priority
    (scan (fun t => RuleMatch.match_zoom (TextRender.rule t) zoom)
          (_pointLabels s)).
End Style.

(** ** [QMap<QString, T>]

    A [QMap] keeps its entries in ascending key order with one entry per
    key; iteration visits them in that order. *)
Module QMap.
Definition t (V : Type) : Type := list (QString * V).

Definition empty {V : Type} : t V := [].

(** [QMap::insert]: replaces the value of an existing key. *)
Fixpoint insert {V : Type} (k : QString) (v : V) (m : t V) : t V :=
  match m with
  | [] => [(k, v)]
  | (k', v') :: m' =>
      match String.compare k k' with
      | Lt => (k, v) :: (k', v') :: m'
      | Eq => (k, v) :: m'
      | Gt => (k', v') :: insert k v m'
      end
  end.

(** [QMap::find]: [None] stands for the [end()] iterator. *)
Fixpoint find {V : Type} (k : QString) (m : t V) : option V :=
  match m with
  | [] => None
  | (k', v) :: m' => if String.eqb k k' then Some v else find k m'
  end.
End QMap.

(** ** The interfaces [data.cpp] relies on *)

(** The member functions [processData] calls on a [Trackpoint] and on a
    [Waypoint]; both classes are declared outside the sources. *)
Class Point (Coordinates P : Type) : Type := {
  hasElevation : P -> bool;
  coordinates : P -> Coordinates;
  setElevation : qreal -> P -> P
}.

(** [std::isnan] *)
Definition isnan (x : qreal) : bool :=
  match x with
  | S754_nan => true
  | _ => false
  end.

(** What [file.open(QFile::ReadOnly)] yields for a file name: failure with
    the text of [file.errorString()], or the contents of the opened file. *)
Inductive OpenResult : Type :=
| OpenFailed (errorString : QString)
| Opened (contents : string).

(** ** Concrete interfaces

    One concrete choice for each interface above, on which the embedded
    functions can be run. *)
Module Sample.

(** Lower-casing of the ASCII letters, as [QString::toLower] does on
    them. *)
Definition toLower_char (c : Ascii.ascii) : Ascii.ascii :=
  let n := Ascii.nat_of_ascii c in
  if (65 <=? n)%nat && (n <=? 90)%nat then Ascii.ascii_of_nat (n + 32) else c.

Fixpoint toLower (s : QString) : QString :=
  match s with
  | EmptyString => EmptyString
  | String c s' => String (toLower_char c) (toLower s')
  end.

(** The text after the last dot of a file name given without directories,
    as [QFileInfo::suffix] reports it; [None] when there is no dot. *)
Fixpoint after_last_dot (s : string) : option string :=
  match s with
  | EmptyString => None
  | String c s' =>
      match after_last_dot s' with
      | Some x => Some x
      | None => if Ascii.eqb c "."%char then Some s' else None
      end
  end.

Definition suffix (fileName : QString) : QString :=
  match after_last_dot fileName with
  | Some x => x
  | None => EmptyString
  end.

(** A point with coordinates and an elevation, NaN standing for "no
    elevation". *)
Record Pt : Type := mkPt { pt_coordinates : Z * Z; pt_elevation : qreal }.

#[global] Instance Pt_point : Point (Z * Z) Pt := {|
  hasElevation p := negb (isnan (pt_elevation p));
  coordinates p := pt_coordinates p;
  setElevation e p := mkPt (pt_coordinates p) e
|}.

(** A DEM that covers the single cell (1, 1), at 250 = 125 * 2^1. *)
Definition DEM_elevation (c : Z * Z) : qreal :=
  if (c.1 =? 1) && (c.2 =? 1) then S754_finite false 125 1 else S754_nan.
End Sample.

Module Data.
Section WithInterfaces.

Context {Coordinates Trackpoint Waypoint Area Track Route : Type}.
Context {trackpoint : Point Coordinates Trackpoint}.
Context {waypoint : Point Coordinates Waypoint}.

(** [DEM::elevation] *)
Variable DEM_elevation : Coordinates -> qreal.
(** [Track(const TrackData &)], [Route(const RouteData &)] *)
Variable Track_ctor : list (list Trackpoint) -> Track.
Variable Route_ctor : list Waypoint -> Route.
(** [QFileInfo::suffix], [QString::toLower] *)
Variable QFileInfo_suffix : QString -> QString.
Variable toLower : QString -> QString.

(** [SegmentData], [TrackData] and [RouteData] are used as the containers
    of their points. *)
Abbreviation SegmentData := (list Trackpoint).
Abbreviation TrackData := (list SegmentData).
Abbreviation RouteData := (list Waypoint).

(** The four containers every parser fills through its reference
    arguments. *)
Record Parsed : Type := mkParsed {
  trackData : list TrackData;
  routeData : list RouteData;
  polygons : list Area;
  waypoints : list Waypoint
}.

(** The outcome of one [Parser::parse] call: its return value, the
    containers as the call left them, and what [errorLine()] and
    [errorString()] report afterwards. *)
Record ParseResult : Type := mkParseResult {
  ok : bool;
  parsed : Parsed;
  errorLine : Z;
  errorString : QString
}.

(** The abstract [Parser] interface.  The file is read from its start: it
    is freshly opened before the first call and [file.reset()] follows
    every failed call of the fall-back loop. *)
Record Parser : Type := mkParser {
  parse : string -> Parsed -> ParseResult
}.

(** The static parser objects, and the [ENABLE_GEOJSON] build switch. *)
Variables gpx tcx kml fit csv igc nmea plt wpt rte loc slf : Parser.
Variables geojson exif cup gpi sml : Parser.
Variable ENABLE_GEOJSON : bool.

Definition parsers : QMap.t Parser :=
  let map := QMap.empty in
  let map := QMap.insert "gpx" gpx map in
  let map := QMap.insert "tcx" tcx map in
  let map := QMap.insert "kml" kml map in
  let map := QMap.insert "fit" fit map in
  let map := QMap.insert "csv" csv map in
  let map := QMap.insert "igc" igc map in
  let map := QMap.insert "nmea" nmea map in
  let map := QMap.insert "plt" plt map in
  let map := QMap.insert "wpt" wpt map in
  let map := QMap.insert "rte" rte map in
  let map := QMap.insert "loc" loc map in
  let map := QMap.insert "slf" slf map in
  let map :=
    if ENABLE_GEOJSON
    then QMap.insert "geojson" geojson (QMap.insert "json" geojson map)
    else map in
  let map := QMap.insert "jpeg" exif map in
  let map := QMap.insert "jpg" exif map in
  let map := QMap.insert "cup" cup map in
  let map := QMap.insert "gpi" gpi map in
  let map := QMap.insert "sml" sml map in
  map.

(** The static members [Data::_parsers] and [Data::_useDEM]. *)
Record Statics : Type := mkStatics {
  _parsers : QMap.t Parser;
  _useDEM : bool
}.

(** [QMap<QString, Parser*> Data::_parsers = parsers();]
    [bool Data::_useDEM = false;] *)
Definition statics_init : Statics := mkStatics parsers false.

Definition useDEM (use : bool) (st : Statics) : Statics :=
  mkStatics (_parsers st) use.

(** The members of a [Data] object. *)
Record t : Type := mkData {
  _valid : bool;
  _errorLine : Z;
  _errorString : QString;
  _tracks : list Track;
  _routes : list Route;
  _polygons : list Area;
  _waypoints : list Waypoint
}.

(** [for (int i = 0; i < n; i++) body], started at index [i] with [n]
    iterations to go.  Every loop of [processData] leaves the size of the
    container it walks unchanged, so its bound is fixed on entry. *)
Fixpoint for_ {S : Type} (n : nat) (i : nat) (body : nat -> S -> S) (s : S)
    : S :=
  match n with
  | O => s
  | Datatypes.S n' => for_ n' (Datatypes.S i) body (body i s)
  end.

(** The guarded elevation update that [processData] applies to a point
    reached through a reference. *)
Definition demElevation {P : Type} `{Point Coordinates P} (useDem : bool)
    (p : P) : P :=
  if negb (hasElevation p) || useDem then
    let elevation := DEM_elevation (coordinates p) in
    if negb (isnan elevation) then setElevation elevation p else p
  else p.

(** The loop over the points of one segment. *)
Definition processSegment (useDem : bool) (segment : SegmentData)
    : SegmentData :=
  for_ (length segment) 0
    (fun k segment => alter (demElevation useDem) k segment) segment.

(** The loop over the segments of one track. *)
Definition processTrack (useDem : bool) (track : TrackData) : TrackData :=
  for_ (length track) 0
    (fun j track => alter (processSegment useDem) j track) track.

(** The loop over the waypoints of one route. *)
Definition processRoute (useDem : bool) (route : RouteData) : RouteData :=
  for_ (length route) 0
    (fun j route => alter (demElevation useDem) j route) route.

(** [QList::append] of an element read with [at(i)]. *)
Definition append_at {A B : Type} (make : A -> B) (l : list A) (i : nat)
    (out : list B) : list B :=
  match l !! i with
  | Some x => out ++ [make x]
  | None => out
  end.

(** [Data::processData]: the two containers are passed by reference and
    come back updated together with the object. *)
Definition processData (st : Statics) (trackData : list TrackData)
    (routeData : list RouteData) (d : t)
    : list TrackData * list RouteData * t :=
  let '(trackData, tracks) :=
    for_ (length trackData) 0
      (fun i '(trackData, tracks) =>
         let trackData := alter (processTrack (_useDEM st)) i trackData in
         (trackData, append_at Track_ctor trackData i tracks))
      (trackData, _tracks d) in
  let '(routeData, routes) :=
    for_ (length routeData) 0
      (fun i '(routeData, routes) =>
         let routeData := alter (processRoute (_useDEM st)) i routeData in
         (routeData, append_at Route_ctor routeData i routes))
      (routeData, _routes d) in
  let waypoints :=
    for_ (length (_waypoints d)) 0
      (fun i waypoints => alter (demElevation (_useDEM st)) i waypoints)
      (_waypoints d) in
  (trackData, routeData,
   mkData (_valid d) (_errorLine d) (_errorString d) tracks routes
          (_polygons d) waypoints).

(** The containers as the constructor passes them to the first [parse]
    call: two empty locals and the object's own empty members. *)
Definition Parsed_init : Parsed := mkParsed [] [] [] [].

(** [if (!poi) processData(trackData, routeData); _valid = true; return;]
    for an object whose [_polygons] and [_waypoints] were filled by the
    successful parser. *)
Definition loaded (st : Statics) (poi : bool) (pd : Parsed) : t :=
  let d := mkData false 0 "" [] [] (polygons pd) (waypoints pd) in
  let d :=
    if negb poi then (processData st (trackData pd) (routeData pd) d).2
    else d in
  mkData true (_errorLine d) (_errorString d) (_tracks d) (_routes d)
         (_polygons d) (_waypoints d).

(** The object a failed load leaves behind: still invalid, with the given
    error line and message. *)
Definition failed (pd : Parsed) (line : Z) (message : QString) : t :=
  mkData false line message [] [] (polygons pd) (waypoints pd).

(** The fall-back loop [for (it = _parsers.begin(); it != _parsers.end();
    it++)]: the first parser that succeeds ends it.  [log] collects the
    keys of the entries whose [parse] was called. *)
Fixpoint tryParsers (entries : QMap.t Parser) (file : string) (pd : Parsed)
    (log : list QString) : bool * Parsed * list QString :=
  match entries with
  | [] => (false, pd, log)
  | (key, p) :: entries' =>
      let r := parse p file pd in
      if ok r then (true, parsed r, log ++ [key])
      else tryParsers entries' file (parsed r) (log ++ [key])
  end.

(** [Data::Data(fileName, poi)].  Besides the constructed object the
    embedding returns the keys of the registry entries whose [parse] was
    called, in call order. *)
Definition Data (st : Statics) (open : QString -> OpenResult)
    (fileName : QString) (poi : bool) : t * list QString :=
  match open fileName with
  | OpenFailed message => (mkData false 0 message [] [] [] [], [])
  | Opened file =>
      let suffix := toLower (QFileInfo_suffix fileName) in
      match QMap.find suffix (_parsers st) with
      | Some p =>
          let r := parse p file Parsed_init in
          if ok r then (loaded st poi (parsed r), [suffix])
          else (failed (parsed r) (errorLine r) (errorString r), [suffix])
      | None =>
          let '(found, pd, log) :=
            tryParsers (_parsers st) file Parsed_init [] in
          if found then (loaded st poi pd, log)
          else (failed pd 0 "Unknown format", log)
      end
  end.

(** The loop of [Data::filter]: [filter << "*." + it.key()] for every
    entry of the registry, in iteration order. *)
Fixpoint filter_loop (entries : QMap.t Parser) (filter : list QString)
    : list QString :=
  match entries with
  | [] => filter
  | (key, _) :: entries' => filter_loop entries' (filter ++ ["*." +:+ key])
  end.

(** [Data::filter] *)
Definition filter (st : Statics) : list QString :=
  filter_loop (_parsers st) [].

(** * Properties *)

(** ** [Data::processData] *)

Lemma for_alter {A : Type} (f : A -> A) (mid pre suf : list A) :
  for_ (length mid) (length pre) (fun i l => alter f i l) (pre ++ mid ++ suf)
  = pre ++ (f <$> mid) ++ suf.
Proof.
  revert pre. induction mid as [|x mid IH]; intros pre; simpl; [done|].
  replace (alter f (length pre) (pre ++ x :: mid ++ suf))
    with ((pre ++ [f x]) ++ mid ++ suf).
  - replace (S (length pre)) with (length (pre ++ [f x]))
      by (rewrite length_app; simpl; lia).
    rewrite IH. by rewrite <- app_assoc.
  - rewrite alter_app_r_alt by lia. rewrite Nat.sub_diag. simpl.
    by rewrite <- app_assoc.
Qed.

Lemma for_alter_all {A : Type} (f : A -> A) (l : list A) :
  for_ (length l) 0 (fun i l => alter f i l) l = f <$> l.
Proof.
  pose proof (for_alter f l [] []) as H. simpl in H.
  rewrite !app_nil_r in H. exact H.
Qed.

Lemma for_alter_append {A B : Type} (f : A -> A) (make : A -> B)
    (mid pre : list A) (out : list B) :
  for_ (length mid) (length pre)
    (fun i '(l, o) => let l := alter f i l in (l, append_at make l i o))
    (pre ++ mid, out)
  = (pre ++ (f <$> mid), out ++ (make <$> (f <$> mid))).
Proof.
  revert pre out. induction mid as [|x mid IH]; intros pre out; simpl.
  - by rewrite !app_nil_r.
  - assert (Halter : alter f (length pre) (pre ++ x :: mid)
                     = (pre ++ [f x]) ++ mid).
    { rewrite alter_app_r_alt by lia. rewrite Nat.sub_diag. simpl.
      by rewrite <- app_assoc. }
    rewrite Halter. unfold append_at at 2.
    assert (Hat : ((pre ++ [f x]) ++ mid) !! length pre = Some (f x)).
    { rewrite <- app_assoc. simpl. by rewrite list_lookup_middle. }
    rewrite Hat.
    replace (S (length pre)) with (length (pre ++ [f x]))
      by (rewrite length_app; simpl; lia).
    rewrite IH. by rewrite <- !app_assoc.
Qed.

Lemma processSegment_fmap (useDem : bool) (segment : SegmentData) :
  processSegment useDem segment = demElevation useDem <$> segment.
Proof. apply for_alter_all. Qed.

Lemma processTrack_fmap (useDem : bool) (track : TrackData) :
  processTrack useDem track = processSegment useDem <$> track.
Proof. apply for_alter_all. Qed.

Lemma processRoute_fmap (useDem : bool) (route : RouteData) :
  processRoute useDem route = demElevation useDem <$> route.
Proof. apply for_alter_all. Qed.

Lemma processData_eq (st : Statics) (td : list TrackData)
    (rd : list RouteData) (d : t) :
  processData st td rd d
  = (processTrack (_useDEM st) <$> td,
     processRoute (_useDEM st) <$> rd,
     mkData (_valid d) (_errorLine d) (_errorString d)
       (_tracks d ++ (Track_ctor <$> (processTrack (_useDEM st) <$> td)))
       (_routes d ++ (Route_ctor <$> (processRoute (_useDEM st) <$> rd)))
       (_polygons d)
       (demElevation (_useDEM st) <$> _waypoints d)).
Proof.
  unfold processData.
  pose proof (for_alter_append (processTrack (_useDEM st)) Track_ctor
                td [] (_tracks d)) as Ht.
  pose proof (for_alter_append (processRoute (_useDEM st)) Route_ctor
                rd [] (_routes d)) as Hr.
  cbv zeta in *. cbn [app length] in Ht, Hr.
  rewrite Ht, Hr. by rewrite for_alter_all.
Qed.

Lemma demElevation_keeps {P : Type} `{Point Coordinates P} (useDem : bool)
    (p : P) :
  (hasElevation p = true /\ useDem = false)
  \/ isnan (DEM_elevation (coordinates p)) = true ->
  demElevation useDem p = p.
Proof.
  unfold demElevation. intros [[Hhas Hoff] | Hnan].
  - by rewrite Hhas, Hoff.
  - rewrite Hnan. simpl. by destruct (negb (hasElevation p) || useDem).
Qed.

(** C10.  [processData] leaves a point exactly as it was (and so its
    elevation with it) whenever the point already has an elevation and the
    static flag [_useDEM] is off, or the DEM lookup at its coordinates is
    NaN.  This holds for the points of every track segment, for the
    waypoints of every route and for the object's own waypoints.  The flag
    is off initially and afterwards holds what the last [useDEM] call
    passed. *)
Theorem processData_keeps_elevation (st : Statics) (td : list TrackData)
    (rd : list RouteData) (d : t) :
  let out := processData st td rd d in
  (forall (i j k : nat) (track : TrackData) (segment : SegmentData)
          (p : Trackpoint),
      td !! i = Some track -> track !! j = Some segment ->
      segment !! k = Some p ->
      (hasElevation p = true /\ _useDEM st = false)
      \/ isnan (DEM_elevation (coordinates p)) = true ->
      exists (track' : TrackData) (segment' : SegmentData),
        out.1.1 !! i = Some track' /\ track' !! j = Some segment'
        /\ segment' !! k = Some p)
  /\ (forall (i j : nat) (route : RouteData) (w : Waypoint),
      rd !! i = Some route -> route !! j = Some w ->
      (hasElevation w = true /\ _useDEM st = false)
      \/ isnan (DEM_elevation (coordinates w)) = true ->
      exists route' : RouteData,
        out.1.2 !! i = Some route' /\ route' !! j = Some w)
  /\ (forall (i : nat) (w : Waypoint),
      _waypoints d !! i = Some w ->
      (hasElevation w = true /\ _useDEM st = false)
      \/ isnan (DEM_elevation (coordinates w)) = true ->
      _waypoints out.2 !! i = Some w)
  /\ _useDEM statics_init = false
  /\ (forall (use : bool) (st' : Statics), _useDEM (useDEM use st') = use).
Proof.
  intros out. subst out. rewrite processData_eq. simpl.
  repeat split.
  - intros i j k track segment p Hi Hj Hk Hkeep.
    exists (processTrack (_useDEM st) track),
           (processSegment (_useDEM st) segment).
    rewrite list_lookup_fmap, Hi. split; [done|].
    rewrite processTrack_fmap, list_lookup_fmap, Hj. split; [done|].
    rewrite processSegment_fmap, list_lookup_fmap, Hk. simpl.
    by rewrite demElevation_keeps.
  - intros i j route w Hi Hj Hkeep.
    exists (processRoute (_useDEM st) route).
    rewrite list_lookup_fmap, Hi. split; [done|].
    rewrite processRoute_fmap, list_lookup_fmap, Hj. simpl.
    by rewrite demElevation_keeps.
  - intros i w Hi Hkeep.
    rewrite list_lookup_fmap, Hi. simpl. by rewrite demElevation_keeps.
Qed.

(** ** [Data::Data] *)

(** The registry built by [parsers()], in iteration order. *)
Lemma parsers_entries :
  parsers
  = [("csv", csv); ("cup", cup); ("fit", fit)]
    ++ (if ENABLE_GEOJSON then [("geojson", geojson)] else [])
    ++ [("gpi", gpi); ("gpx", gpx); ("igc", igc); ("jpeg", exif);
        ("jpg", exif)]
    ++ (if ENABLE_GEOJSON then [("json", geojson)] else [])
    ++ [("kml", kml); ("loc", loc); ("nmea", nmea); ("plt", plt);
        ("rte", rte); ("slf", slf); ("sml", sml); ("tcx", tcx);
        ("wpt", wpt)].
Proof. unfold parsers. by destruct ENABLE_GEOJSON. Qed.

Lemma tryParsers_log (entries : QMap.t Parser) (file : string) (pd : Parsed)
    (log : list QString) :
  exists n : nat, (tryParsers entries file pd log).2 = log ++ take n entries.*1.
Proof.
  revert pd log. induction entries as [|[key p] entries IH]; intros pd log.
  - exists 0%nat. simpl. by rewrite app_nil_r.
  - simpl. destruct (ok (parse p file pd)).
    + exists 1%nat. simpl. by rewrite take_0.
    + destruct (IH (parsed (parse p file pd)) (log ++ [key])) as [n Hn].
      exists (S n). rewrite Hn. simpl. by rewrite <- app_assoc.
Qed.

Lemma tryParsers_all_fail (entries : QMap.t Parser) (file : string)
    (pd : Parsed) (log : list QString) :
  (forall key p pd', (key, p) ∈ entries -> ok (parse p file pd') = false) ->
  (tryParsers entries file pd log).1.1 = false
  /\ (tryParsers entries file pd log).2 = log ++ entries.*1.
Proof.
  revert pd log. induction entries as [|[key p] entries IH];
    intros pd log Hfail.
  - simpl. by rewrite app_nil_r.
  - simpl. rewrite (Hfail key p pd) by left.
    destruct (IH (parsed (parse p file pd)) (log ++ [key])) as [H1 H2].
    { intros key' p' pd' Hin. apply (Hfail key' p'). by right. }
    rewrite H1, H2. by rewrite <- app_assoc.
Qed.

(** C9.  For a file that opens: when the lower-cased suffix is a key of the
    registry, the [parse] of the entry found under it is the only one
    called, the object is valid exactly when that call succeeds, and on
    failure the error line and message are the ones that parser reports.
    The registry is walked only when the suffix is not a key: the calls
    then follow the registry order, and when every parser fails all entries
    have been tried and the object is invalid with error line 0 and message
    "Unknown format".  A file that does not open reaches no parser. *)
Theorem Data_suffix_dispatch (st : Statics) (open : QString -> OpenResult)
    (fileName : QString) (poi : bool) :
  let suffix := toLower (QFileInfo_suffix fileName) in
  let d := (Data st open fileName poi).1 in
  let log := (Data st open fileName poi).2 in
  (forall file : string, open fileName = Opened file ->
     (forall p : Parser, QMap.find suffix (_parsers st) = Some p ->
        let r := parse p file Parsed_init in
        log = [suffix] /\ _valid d = ok r
        /\ (ok r = false ->
            _errorLine d = errorLine r /\ _errorString d = errorString r))
     /\ (QMap.find suffix (_parsers st) = None ->
        (exists n : nat, log = take n (_parsers st).*1)
        /\ ((forall key p pd,
               (key, p) ∈ _parsers st -> ok (parse p file pd) = false) ->
            log = (_parsers st).*1 /\ _valid d = false
            /\ _errorLine d = 0 /\ _errorString d = "Unknown format")))
  /\ (forall message : QString, open fileName = OpenFailed message ->
       log = [] /\ _valid d = false).
Proof.
  intros suffix d log. subst d log. unfold Data. fold suffix.
  split.
  - intros file Hopen. rewrite Hopen. split.
    + intros p Hfind. rewrite Hfind.
      destruct (ok (parse p file Parsed_init)) eqn:Hok; simpl;
        repeat split; try done.
    + intros Hfind. rewrite Hfind.
      pose proof (tryParsers_log (_parsers st) file Parsed_init []) as [n Hn].
      pose proof (tryParsers_all_fail (_parsers st) file Parsed_init [])
        as Hall.
      destruct (tryParsers (_parsers st) file Parsed_init [])
        as [[found pd] log] eqn:Htry.
      simpl in Hn, Hall. split.
      * exists n. by destruct found.
      * intros Hfail. destruct (Hall Hfail) as [-> ->]. by simpl.
  - intros message Hopen. by rewrite Hopen.
Qed.

(** ** Further properties of [Data::processData] *)

Lemma demElevation_sets {P : Type} `{Point Coordinates P} (useDem : bool)
    (p : P) :
  hasElevation p = false \/ useDem = true ->
  isnan (DEM_elevation (coordinates p)) = false ->
  demElevation useDem p = setElevation (DEM_elevation (coordinates p)) p.
Proof.
  unfold demElevation. intros [Hno | Hon] Hnum; rewrite Hnum; simpl.
  - by rewrite Hno.
  - by rewrite Hon, orb_true_r.
Qed.

(** X13.  [processData] neither adds nor removes a track, a segment, a
    point, a route or a waypoint; it appends one [Track] per processed
    [TrackData] and one [Route] per processed [RouteData], in order, behind
    those the object already holds; and it leaves [_polygons], [_valid],
    [_errorLine] and [_errorString] alone. *)
Theorem processData_shape (st : Statics) (td : list TrackData)
    (rd : list RouteData) (d : t) :
  let out := processData st td rd d in
  (length out.1.1 = length td
   /\ forall (i : nat) (track : TrackData), td !! i = Some track ->
        exists track' : TrackData,
          out.1.1 !! i = Some track' /\ length track' = length track
          /\ forall (j : nat) (segment : SegmentData),
               track !! j = Some segment ->
               exists segment' : SegmentData,
                 track' !! j = Some segment'
                 /\ length segment' = length segment)
  /\ (length out.1.2 = length rd
      /\ forall (i : nat) (route : RouteData), rd !! i = Some route ->
           exists route' : RouteData,
             out.1.2 !! i = Some route' /\ length route' = length route)
  /\ length (_waypoints out.2) = length (_waypoints d)
  /\ _tracks out.2 = _tracks d ++ (Track_ctor <$> out.1.1)
  /\ _routes out.2 = _routes d ++ (Route_ctor <$> out.1.2)
  /\ _polygons out.2 = _polygons d
  /\ _valid out.2 = _valid d
  /\ _errorLine out.2 = _errorLine d
  /\ _errorString out.2 = _errorString d.
Proof.
  intros out. subst out. rewrite processData_eq. simpl.
  rewrite !length_fmap.
  split; [split; [done|] | split; [split; [done|] | done]].
  - intros i track Hi. exists (processTrack (_useDEM st) track).
    rewrite list_lookup_fmap, Hi. split; [done|].
    rewrite processTrack_fmap, length_fmap. split; [done|].
    intros j segment Hj. exists (processSegment (_useDEM st) segment).
    rewrite list_lookup_fmap, Hj. split; [done|].
    by rewrite processSegment_fmap, length_fmap.
  - intros i route Hi. exists (processRoute (_useDEM st) route).
    rewrite list_lookup_fmap, Hi. split; [done|].
    by rewrite processRoute_fmap, length_fmap.
Qed.

(** X14.  Where the DEM has a value for a point's coordinates (the lookup
    is not NaN), [processData] replaces the point by
    [setElevation(DEM value)] if the point had no elevation or [_useDEM] is
    on: for the points of every track segment, the waypoints of every route
    and the object's own waypoints. *)
Theorem processData_fills_elevation (st : Statics) (td : list TrackData)
    (rd : list RouteData) (d : t) :
  let out := processData st td rd d in
  (forall (i j k : nat) (track : TrackData) (segment : SegmentData)
          (p : Trackpoint),
      td !! i = Some track -> track !! j = Some segment ->
      segment !! k = Some p ->
      hasElevation p = false \/ _useDEM st = true ->
      isnan (DEM_elevation (coordinates p)) = false ->
      exists (track' : TrackData) (segment' : SegmentData),
        out.1.1 !! i = Some track' /\ track' !! j = Some segment'
        /\ segment' !! k
           = Some (setElevation (DEM_elevation (coordinates p)) p))
  /\ (forall (i j : nat) (route : RouteData) (w : Waypoint),
      rd !! i = Some route -> route !! j = Some w ->
      hasElevation w = false \/ _useDEM st = true ->
      isnan (DEM_elevation (coordinates w)) = false ->
      exists route' : RouteData,
        out.1.2 !! i = Some route'
        /\ route' !! j
           = Some (setElevation (DEM_elevation (coordinates w)) w))
  /\ (forall (i : nat) (w : Waypoint),
      _waypoints d !! i = Some w ->
      hasElevation w = false \/ _useDEM st = true ->
      isnan (DEM_elevation (coordinates w)) = false ->
      _waypoints out.2 !! i
      = Some (setElevation (DEM_elevation (coordinates w)) w)).
Proof.
  intros out. subst out. rewrite processData_eq. simpl.
  split; [|split].
  - intros i j k track segment p Hi Hj Hk Hwhen Hnum.
    exists (processTrack (_useDEM st) track),
           (processSegment (_useDEM st) segment).
    rewrite list_lookup_fmap, Hi. split; [done|].
    rewrite processTrack_fmap, list_lookup_fmap, Hj. split; [done|].
    rewrite processSegment_fmap, list_lookup_fmap, Hk. simpl.
    by rewrite demElevation_sets.
  - intros i j route w Hi Hj Hwhen Hnum.
    exists (processRoute (_useDEM st) route).
    rewrite list_lookup_fmap, Hi. split; [done|].
    rewrite processRoute_fmap, list_lookup_fmap, Hj. simpl.
    by rewrite demElevation_sets.
  - intros i w Hi Hwhen Hnum.
    rewrite list_lookup_fmap, Hi. simpl. by rewrite demElevation_sets.
Qed.

(** ** Further properties of [Data::Data] *)

Lemma loaded_eq (st : Statics) (poi : bool) (pd : Parsed) :
  loaded st poi pd
  = if poi then mkData true 0 "" [] [] (polygons pd) (waypoints pd)
    else mkData true 0 ""
           (Track_ctor <$> (processTrack (_useDEM st) <$> trackData pd))
           (Route_ctor <$> (processRoute (_useDEM st) <$> routeData pd))
           (polygons pd)
           (demElevation (_useDEM st) <$> waypoints pd).
Proof.
  unfold loaded. destruct poi; simpl; [done|]. by rewrite processData_eq.
Qed.

Lemma loaded_facts (st : Statics) (poi : bool) (pd : Parsed) :
  _valid (loaded st poi pd) = true
  /\ _errorLine (loaded st poi pd) = 0
  /\ _errorString (loaded st poi pd) = ""
  /\ (poi = true ->
      _tracks (loaded st poi pd) = [] /\ _routes (loaded st poi pd) = []
      /\ _waypoints (loaded st poi pd) = waypoints pd).
Proof.
  rewrite loaded_eq. destruct poi; simpl; repeat split; done.
Qed.

(** X15.  Whatever the file and the registry: a valid [Data] object has
    error line 0 and an empty error string; an invalid one holds no track
    and no route; and one built with [poi] set holds no track and no route
    either, since [processData] is skipped. *)
Theorem Data_object_invariants (st : Statics) (open : QString -> OpenResult)
    (fileName : QString) (poi : bool) :
  let d := (Data st open fileName poi).1 in
  (_valid d = true -> _errorLine d = 0 /\ _errorString d = "")
  /\ (_valid d = false -> _tracks d = [] /\ _routes d = [])
  /\ (poi = true -> _tracks d = [] /\ _routes d = []).
Proof.
  intros d. subst d. unfold Data.
  destruct (open fileName) as [message | file];
    [simpl; split; [done | split; done]|].
  assert (Hloaded : forall pd,
    (_valid (loaded st poi pd) = true ->
       _errorLine (loaded st poi pd) = 0
       /\ _errorString (loaded st poi pd) = "")
    /\ (_valid (loaded st poi pd) = false ->
       _tracks (loaded st poi pd) = [] /\ _routes (loaded st poi pd) = [])
    /\ (poi = true ->
       _tracks (loaded st poi pd) = [] /\ _routes (loaded st poi pd) = [])).
  { intros pd. destruct (loaded_facts st poi pd) as (Hv & Hl & Hs & Hpoi).
    split; [done|]. split; [by rewrite Hv|].
    intros Hp. by destruct (Hpoi Hp) as (? & ? & _). }
  destruct (QMap.find _ _) as [p|].
  - destruct (ok (parse p file Parsed_init)); cbn [fst];
      [apply Hloaded | simpl; split; [done | split; done]].
  - destruct (tryParsers (_parsers st) file Parsed_init [])
      as [[found pd] log].
    destruct found; cbn [fst];
      [apply Hloaded | simpl; split; [done | split; done]].
Qed.

Lemma tryParsers_first_success (pre post : QMap.t Parser) (key : QString)
    (p : Parser) (file : string) (pd : Parsed) (log : list QString) :
  (forall k q, (k, q) ∈ pre ->
     ok (parse q file pd) = false /\ parsed (parse q file pd) = pd) ->
  ok (parse p file pd) = true ->
  tryParsers (pre ++ (key, p) :: post) file pd log
  = (true, parsed (parse p file pd), log ++ pre.*1 ++ [key]).
Proof.
  revert log. induction pre as [|[k q] pre IH]; intros log Hclean Hok; simpl.
  - by rewrite Hok.
  - destruct (Hclean k q) as [Hfail Hsame]; [left|].
    rewrite Hfail, Hsame, IH;
      [|intros k0 q0 Hin; apply (Hclean k0 q0); by right | done].
    by rewrite <- app_assoc.
Qed.

(** X16.  In the fall-back walk the first parser that accepts the file
    wins and the entries behind it are never called: if the suffix is not
    registered, the entries ahead of [(key, p)] all fail and leave the
    containers as they found them, and [p] accepts the file, then exactly
    the keys up to [key] are tried and the object is the valid one that a
    registry dispatching the suffix straight to [p] builds. *)
Theorem Data_fallback_first_success (st : Statics)
    (open : QString -> OpenResult) (fileName : QString) (poi : bool)
    (file : string) (pre post : QMap.t Parser) (key : QString) (p : Parser) :
  open fileName = Opened file ->
  QMap.find (toLower (QFileInfo_suffix fileName)) (_parsers st) = None ->
  _parsers st = pre ++ (key, p) :: post ->
  (forall k q, (k, q) ∈ pre ->
     ok (parse q file Parsed_init) = false
     /\ parsed (parse q file Parsed_init) = Parsed_init) ->
  ok (parse p file Parsed_init) = true ->
  (Data st open fileName poi).2 = pre.*1 ++ [key]
  /\ _valid (Data st open fileName poi).1 = true
  /\ forall st' : Statics,
       _useDEM st' = _useDEM st ->
       QMap.find (toLower (QFileInfo_suffix fileName)) (_parsers st')
       = Some p ->
       (Data st' open fileName poi).1 = (Data st open fileName poi).1.
Proof.
  intros Hopen Hfind Hsplit Hclean Hok. unfold Data.
  rewrite Hopen, Hfind, Hsplit.
  rewrite (tryParsers_first_success pre post key p file Parsed_init []
             Hclean Hok).
  cbn [fst snd app]. split; [done|].
  split; [apply (proj1 (loaded_facts _ _ _))|].
  intros st' Hdem Hfind'. rewrite Hfind', Hok. cbn [fst].
  by rewrite !loaded_eq, Hdem.
Qed.

(** X19.  What direct dispatch leaves in the object.  When the suffix is
    registered, [_polygons] and the number of waypoints are those the
    parser delivered.  If the parser succeeds the object holds one [Track]
    per parsed track and one [Route] per parsed route, or none of either
    with [poi] set, where the waypoints too are exactly the parser's.  If
    it fails the object holds no track and no route, but keeps the
    waypoints the failed parser left behind. *)
Theorem Data_direct_dispatch_contents (st : Statics)
    (open : QString -> OpenResult) (fileName : QString) (poi : bool)
    (file : string) (p : Parser) :
  open fileName = Opened file ->
  QMap.find (toLower (QFileInfo_suffix fileName)) (_parsers st) = Some p ->
  _polygons (Data st open fileName poi).1
  = polygons (parsed (parse p file Parsed_init))
  /\ length (_waypoints (Data st open fileName poi).1)
     = length (waypoints (parsed (parse p file Parsed_init)))
  /\ (ok (parse p file Parsed_init) = true ->
      length (_tracks (Data st open fileName poi).1)
      = (if poi then 0%nat
         else length (trackData (parsed (parse p file Parsed_init))))
      /\ length (_routes (Data st open fileName poi).1)
         = (if poi then 0%nat
            else length (routeData (parsed (parse p file Parsed_init))))
      /\ (poi = true ->
          _waypoints (Data st open fileName poi).1
          = waypoints (parsed (parse p file Parsed_init))))
  /\ (ok (parse p file Parsed_init) = false ->
      _waypoints (Data st open fileName poi).1
      = waypoints (parsed (parse p file Parsed_init))
      /\ _tracks (Data st open fileName poi).1 = []
      /\ _routes (Data st open fileName poi).1 = []).
Proof.
  intros Hopen Hfind. unfold Data. rewrite Hopen, Hfind.
  destruct (ok (parse p file Parsed_init)); cbn [fst].
  - rewrite loaded_eq. destruct poi; simpl; rewrite ?length_fmap;
      repeat split; done.
  - simpl. repeat split; done.
Qed.

(** X20.  Switching [_useDEM] changes nothing but elevations: the same
    parsers are called, validity, error line, error string and polygons are
    the same, and so are the numbers of tracks, routes and waypoints; with
    [poi] set the whole object is the same. *)
Theorem useDEM_only_affects_elevations (st : Statics)
    (open : QString -> OpenResult) (fileName : QString) (poi use : bool) :
  (Data (useDEM use st) open fileName poi).2 = (Data st open fileName poi).2
  /\ _valid (Data (useDEM use st) open fileName poi).1
     = _valid (Data st open fileName poi).1
  /\ _errorLine (Data (useDEM use st) open fileName poi).1
     = _errorLine (Data st open fileName poi).1
  /\ _errorString (Data (useDEM use st) open fileName poi).1
     = _errorString (Data st open fileName poi).1
  /\ _polygons (Data (useDEM use st) open fileName poi).1
     = _polygons (Data st open fileName poi).1
  /\ length (_tracks (Data (useDEM use st) open fileName poi).1)
     = length (_tracks (Data st open fileName poi).1)
  /\ length (_routes (Data (useDEM use st) open fileName poi).1)
     = length (_routes (Data st open fileName poi).1)
  /\ length (_waypoints (Data (useDEM use st) open fileName poi).1)
     = length (_waypoints (Data st open fileName poi).1)
  /\ (poi = true ->
      (Data (useDEM use st) open fileName poi).1
      = (Data st open fileName poi).1).
Proof.
  unfold Data, useDEM. cbn [_parsers].
  destruct (open fileName) as [message | file]; [by repeat split|].
  destruct (QMap.find _ _) as [p|].
  - destruct (ok (parse p file Parsed_init)); cbn [fst snd];
      [|by repeat split].
    rewrite !loaded_eq. destruct poi; simpl; rewrite ?length_fmap;
      repeat split; done.
  - destruct (tryParsers (_parsers st) file Parsed_init [])
      as [[found pd] log].
    destruct found; cbn [fst snd]; [|by repeat split].
    rewrite !loaded_eq. destruct poi; simpl; rewrite ?length_fmap;
      repeat split; done.
Qed.

(** ** [Data::filter] and [parsers()] *)

Lemma filter_loop_eq (entries : QMap.t Parser) (acc : list QString) :
  filter_loop entries acc = acc ++ ((fun e => "*." +:+ e.1) <$> entries).
Proof.
  revert acc. induction entries as [|[key p] entries IH]; intros acc; simpl.
  - by rewrite app_nil_r.
  - rewrite IH. by rewrite <- app_assoc.
Qed.

Lemma find_is_Some (k : QString) (m : QMap.t Parser) :
  is_Some (QMap.find k m) <-> k ∈ m.*1.
Proof.
  induction m as [|[k' v] m IH]; simpl.
  - split; [by intros [? ?] | intros H; by apply elem_of_nil in H].
  - destruct (String.eqb_spec k k') as [-> | Hne].
    + split; [intros _; left | intros _; by eexists].
    + rewrite IH, elem_of_cons. split; [by right | by intros [? | ?]].
Qed.

(** X17.  [filter()] yields one pattern per registry entry, in registry
    order, each the key behind ["*."]; a pattern ["*." + suffix] is listed
    exactly when the constructor finds a parser under that suffix. *)
Theorem filter_patterns (st : Statics) :
  filter st = (fun e => "*." +:+ e.1) <$> _parsers st
  /\ length (filter st) = length (_parsers st)
  /\ forall suffix : QString,
       "*." +:+ suffix ∈ filter st
       <-> is_Some (QMap.find suffix (_parsers st)).
Proof.
  assert (Heq : filter st = (fun e => "*." +:+ e.1) <$> _parsers st).
  { unfold filter. by rewrite filter_loop_eq. }
  rewrite Heq, length_fmap. split; [done|]. split; [done|].
  intros suffix. rewrite find_is_Some, !list_elem_of_fmap. split.
  - intros (e & Hpat & He). exists e. split; [|done].
    simpl in Hpat. by injection Hpat.
  - intros (e & -> & He). by exists e.
Qed.

(** X18.  The registry [parsers()] builds has strictly ascending keys, so
    no [insert] replaced an earlier one and every registered pair is found
    again under its key; ["json"] and ["geojson"] lead to the GeoJSON
    parser exactly in builds with [ENABLE_GEOJSON]. *)
Theorem parsers_registry :
  StronglySorted (fun a b => String.ltb a b = true) parsers.*1
  /\ (forall k p, (k, p) ∈ parsers -> QMap.find k parsers = Some p)
  /\ length parsers = (if ENABLE_GEOJSON then 19 else 17)%nat
  /\ QMap.find "json" parsers
     = (if ENABLE_GEOJSON then Some geojson else None)
  /\ QMap.find "geojson" parsers
     = (if ENABLE_GEOJSON then Some geojson else None).
Proof.
  rewrite parsers_entries.
  destruct ENABLE_GEOJSON; simpl; (split; [|split; [|done]]).
  - repeat (constructor; [|by repeat constructor]). constructor.
  - intros k p Hin.
    repeat (apply elem_of_cons in Hin as [Heq | Hin];
            [injection Heq as -> ->; reflexivity|]).
    by apply elem_of_nil in Hin.
  - repeat (constructor; [|by repeat constructor]). constructor.
  - intros k p Hin.
    repeat (apply elem_of_cons in Hin as [Heq | Hin];
            [injection Heq as -> ->; reflexivity|]).
    by apply elem_of_nil in Hin.
Qed.

End WithInterfaces.
End Data.

(** ** [Filter::keyMatches], [Filter::valueMatches], [Filter::match] *)
Section FilterFacts.
Import MapData Filter.

Lemma keyMatches_tags_true (k : N) (tags : list Tag) :
  keyMatches_tags k tags = true
  <-> exists tg, tg ∈ tags /\ (k = 0%N \/ k = key tg).
Proof.
  induction tags as [|tg tags IH]; simpl.
  - split; [done|]. intros (tg & Hin & _). by apply elem_of_nil in Hin.
  - destruct ((k =? 0)%N || (k =? key tg)%N) eqn:Hhit.
    + split; [|done]. intros _. exists tg. split; [left|].
      apply orb_true_iff in Hhit as [H | H]; apply N.eqb_eq in H; auto.
    + apply orb_false_iff in Hhit as [H0 Hk].
      apply N.eqb_neq in H0, Hk. rewrite IH. split.
      * intros (tg' & Hin & Hm). exists tg'. split; [by right | done].
      * intros (tg' & Hin & Hm). apply elem_of_cons in Hin as [-> | Hin].
        -- by destruct Hm.
        -- by exists tg'.
Qed.

Lemma keyMatches_true (f : Filter.t) (tags : list Tag) :
  keyMatches f tags = true
  <-> exists k tg, k ∈ _keys f /\ tg ∈ tags /\ (k = 0%N \/ k = key tg).
Proof.
  unfold keyMatches. induction (_keys f) as [|k keys IH]; simpl.
  - split; [done|]. intros (k & tg & Hin & _). by apply elem_of_nil in Hin.
  - destruct (keyMatches_tags k tags) eqn:Hk.
    + split; [|done]. intros _.
      apply keyMatches_tags_true in Hk as (tg & Hin & Hm).
      exists k, tg. split; [left | done].
    + rewrite IH. split.
      * intros (k' & tg & Hin & Hrest). exists k', tg. split; [by right|done].
      * intros (k' & tg & Hin & Htg & Hm).
        apply elem_of_cons in Hin as [-> | Hin]; [|by exists k', tg].
        assert (keyMatches_tags k tags = true) as Hyes
          by (apply keyMatches_tags_true; by exists tg).
        congruence.
Qed.

Lemma valueMatches_tags_true (ba : QByteArray) (tags : list Tag) :
  valueMatches_tags ba tags = true
  <-> exists tg, tg ∈ tags /\ (ba = "" \/ ba = value tg).
Proof.
  induction tags as [|tg tags IH]; simpl.
  - split; [done|]. intros (tg & Hin & _). by apply elem_of_nil in Hin.
  - destruct ((String.length ba =? 0)%nat || String.eqb ba (value tg))
      eqn:Hhit.
    + split; [|done]. intros _. exists tg. split; [left|].
      apply orb_true_iff in Hhit as [H | H].
      * left. apply Nat.eqb_eq in H. by destruct ba.
      * right. by apply String.eqb_eq.
    + apply orb_false_iff in Hhit as [H0 Hv].
      apply Nat.eqb_neq in H0. apply String.eqb_neq in Hv.
      rewrite IH. split.
      * intros (tg' & Hin & Hm). exists tg'. split; [by right | done].
      * intros (tg' & Hin & Hm). apply elem_of_cons in Hin as [-> | Hin].
        -- destruct Hm as [-> | Hm]; done.
        -- by exists tg'.
Qed.

Lemma valueMatches_true (f : Filter.t) (tags : list Tag) :
  valueMatches f tags = true
  <-> exists v tg, v ∈ _vals f /\ tg ∈ tags /\ (v = "" \/ v = value tg).
Proof.
  unfold valueMatches. induction (_vals f) as [|v vals IH]; simpl.
  - split; [done|]. intros (v & tg & Hin & _). by apply elem_of_nil in Hin.
  - destruct (valueMatches_tags v tags) eqn:Hv.
    + split; [|done]. intros _.
      apply valueMatches_tags_true in Hv as (tg & Hin & Hm).
      exists v, tg. split; [left | done].
    + rewrite IH. split.
      * intros (v' & tg & Hin & Hrest). exists v', tg. split; [by right|done].
      * intros (v' & tg & Hin & Htg & Hm).
        apply elem_of_cons in Hin as [-> | Hin]; [|by exists v', tg].
        assert (valueMatches_tags v tags = true) as Hyes
          by (apply valueMatches_tags_true; by exists tg).
        congruence.
Qed.

Lemma keyMatches_false (f : Filter.t) (tags : list Tag) :
  keyMatches f tags = false
  <-> forall k tg, k ∈ _keys f -> tg ∈ tags -> k <> 0%N /\ k <> key tg.
Proof.
  rewrite <- not_true_iff_false, keyMatches_true. split.
  - intros Hno k tg Hk Htg. split; intros Heq; apply Hno; exists k, tg; auto.
  - intros Hall (k & tg & Hk & Htg & Hm).
    destruct (Hall k tg Hk Htg) as [H0 Hne]. by destruct Hm.
Qed.

Lemma valueMatches_false (f : Filter.t) (tags : list Tag) :
  valueMatches f tags = false
  <-> forall v tg, v ∈ _vals f -> tg ∈ tags -> v <> "" /\ v <> value tg.
Proof.
  rewrite <- not_true_iff_false, valueMatches_true. split.
  - intros Hno v tg Hv Htg. split; intros Heq; apply Hno; exists v, tg; auto.
  - intros Hall (v & tg & Hv & Htg & Hm).
    destruct (Hall v tg Hv Htg) as [H0 Hne]. by destruct Hm.
Qed.

End FilterFacts.

Section FilterClaims.
Import MapData Filter.

Lemma keyMatches_nil (f : Filter.t) : keyMatches f [] = false.
Proof. unfold keyMatches. by induction (_keys f). Qed.

Lemma valueMatches_nil (f : Filter.t) : valueMatches f [] = false.
Proof. unfold valueMatches. by induction (_vals f). Qed.

Lemma match_nil (f : Filter.t) : match_ f [] = _neg f.
Proof.
  unfold match_. rewrite keyMatches_nil, valueMatches_nil.
  by destruct (_neg f).
Qed.

(** C8.  On the empty tag vector neither loop body of [keyMatches] or
    [valueMatches] runs, so both return false whatever the key and value
    sets hold, and [Filter::match] returns the negation flag: true for a
    negated filter, false otherwise. *)
Theorem match_empty_tags (f : Filter.t) :
  keyMatches f [] = false /\ valueMatches f [] = false
  /\ match_ f [] = _neg f
  /\ (_neg f = true -> match_ f [] = true)
  /\ (_neg f = false -> match_ f [] = false).
Proof.
  rewrite keyMatches_nil, valueMatches_nil, match_nil.
  repeat split; auto.
Qed.

(** C1, the claim as stated fails: the non-negated filter whose key set is
    the wildcard key and whose value set is the wildcard value does not
    match the empty tag vector. *)
Lemma wildcard_filter_rejects_empty_tags :
  let f := mkFilter [0%N] [""] false in
  0%N ∈ _keys f /\ "" ∈ _vals f /\ match_ f [] = false.
Proof. simpl. repeat split; by left. Qed.

(** C1, amended.  A filter whose key set contains the wildcard key and
    whose value set contains the wildcard value matches every tag vector
    that is not empty; on the empty tag vector it returns its negation
    flag. *)
Theorem wildcard_filter_match (f : Filter.t) (tags : list Tag) :
  0%N ∈ _keys f -> "" ∈ _vals f ->
  (tags <> [] -> match_ f tags = true) /\ match_ f [] = _neg f.
Proof.
  intros Hkey Hval. split; [|apply match_nil].
  intros Htags. destruct tags as [|tg tags]; [done|].
  assert (Hk : keyMatches f (tg :: tags) = true).
  { apply keyMatches_true. exists 0%N, tg. repeat split; auto. left. }
  assert (Hv : valueMatches f (tg :: tags) = true).
  { apply valueMatches_true. exists "", tg. repeat split; auto. left. }
  unfold match_. rewrite Hk, Hv. by destruct (_neg f).
Qed.

(** C3.  For a negated filter and a tag vector on which key-match succeeds
    (some candidate key is the wildcard or equals some tag's key) while
    value-match fails (no declared value is the wildcard or equals any
    tag's value), [keyMatches] is true, [valueMatches] is false and
    [Filter::match] returns false. *)
Theorem negated_key_hit_value_miss (f : Filter.t) (tags : list Tag) :
  _neg f = true ->
  (exists k tg, k ∈ _keys f /\ tg ∈ tags /\ (k = 0%N \/ k = key tg)) ->
  (forall v tg, v ∈ _vals f -> tg ∈ tags -> v <> "" /\ v <> value tg) ->
  keyMatches f tags = true /\ valueMatches f tags = false
  /\ match_ f tags = false.
Proof.
  intros Hneg Hkey Hval.
  apply keyMatches_true in Hkey. apply valueMatches_false in Hval.
  unfold match_. by rewrite Hneg, Hkey, Hval.
Qed.

(** C5, the claim as stated fails: a negated filter whose only candidate key
    is the wildcard is key-matched by any tag, although the wildcard does
    not occur as a tag key, and then returns what value-match says. *)
Lemma negated_wildcard_key_counterexample :
  let f := mkFilter [0%N] ["x"] true in
  let tags := [mkTag 5%N "y"] in
  _neg f = true
  /\ (forall k tg, k ∈ _keys f -> tg ∈ tags -> k <> key tg)
  /\ match_ f tags = false.
Proof.
  simpl. repeat split.
  intros k tg Hk Htg.
  apply list_elem_of_singleton in Hk. apply list_elem_of_singleton in Htg.
  by subst.
Qed.

(** C5, amended.  A negated filter matches every tag vector on which
    key-match fails, that is, no candidate key is the wildcard or equals a
    tag's key (which covers every filter on the empty tag vector and every
    wildcard-free key set none of whose keys occurs among the tags),
    whatever its value set. *)
Theorem negated_key_miss (f : Filter.t) (tags : list Tag) :
  _neg f = true ->
  (forall k tg, k ∈ _keys f -> tg ∈ tags -> k <> 0%N /\ k <> key tg) ->
  match_ f tags = true.
Proof.
  intros Hneg Hmiss. apply keyMatches_false in Hmiss.
  unfold match_. by rewrite Hneg, Hmiss.
Qed.

End FilterClaims.

(** ** [Rule::addFilter] and the narrowing setters *)
Section RuleClaims.
Import MapData Filter Rule.

Lemma contains_key_true (keys : list N) (k : N) :
  contains_key keys k = true <-> k ∈ keys.
Proof.
  unfold contains_key. rewrite existsb_exists. split.
  - intros (k' & Hin & Heq). apply N.eqb_eq in Heq. subst.
    by apply list_elem_of_In.
  - intros Hin. exists k. split; [by apply list_elem_of_In | apply N.eqb_refl].
Qed.

Lemma contains_val_true (vals : list QByteArray) (v : QByteArray) :
  contains_val vals v = true <-> v ∈ vals.
Proof.
  unfold contains_val. rewrite existsb_exists. split.
  - intros (v' & Hin & Heq). apply String.eqb_eq in Heq. subst.
    by apply list_elem_of_In.
  - intros Hin. exists v.
    split; [by apply list_elem_of_In | apply String.eqb_refl].
Qed.

Lemma isTautology_true (f : Filter.t) :
  isTautology f = true <-> _neg f = false /\ 0%N ∈ _keys f /\ "" ∈ _vals f.
Proof.
  unfold isTautology, QByteArray_null.
  rewrite !andb_true_iff, negb_true_iff, contains_key_true, contains_val_true.
  tauto.
Qed.

Lemma pure_wildcards_inhabited {A : Type} (test : A -> bool) (l : list A) :
  negb (length l =? 0)%nat = true -> forallb test l = true ->
  exists x, x ∈ l /\ test x = true.
Proof.
  destruct l as [|x l]; [done|]. simpl. intros _ Hall.
  apply andb_true_iff in Hall as [Hx _]. exists x. split; [left | done].
Qed.

Lemma pureWildcardTautology_isTautology (f : Filter.t) :
  pureWildcardTautology f = true -> isTautology f = true.
Proof.
  unfold pureWildcardTautology. rewrite !andb_true_iff.
  intros [[[[Hneg Hk1] Hk2] Hv1] Hv2].
  apply isTautology_true. split; [by apply negb_true_iff|].
  destruct (pure_wildcards_inhabited _ _ Hk1 Hk2) as (k & Hk & Hk0).
  destruct (pure_wildcards_inhabited _ _ Hv1 Hv2) as (v & Hv & Hv0).
  apply N.eqb_eq in Hk0. apply Nat.eqb_eq in Hv0.
  subst k. destruct v; [done | discriminate].
Qed.

Lemma call_filters (r : Rule.t) (c : Setter) :
  _filters (call r c) = _filters r
  \/ exists f, c = AddFilter f /\ isTautology f = false
               /\ _filters (call r c) = _filters r ++ [f].
Proof.
  destruct c as [ty | z | z | cl | f]; simpl; auto.
  unfold addFilter. destruct (isTautology f) eqn:Ht; simpl; [by left|].
  right. by exists f.
Qed.

Lemma narrowed_no_tautology (calls : list Setter) (r : Rule.t) :
  Forall (fun f => isTautology f = false) (_filters r) ->
  Forall (fun f => isTautology f = false) (_filters (narrowed r calls)).
Proof.
  unfold narrowed. revert r.
  induction calls as [|c calls IH]; intros r Hr; simpl; [done|].
  apply IH. destruct (call_filters r c) as [-> | (f & _ & Hf & ->)]; [done|].
  apply Forall_app. split; [done|]. by constructor.
Qed.

Lemma compiled_no_tautology (calls : list Setter) (g : Filter.t) :
  g ∈ _filters (narrowed Rule calls) -> isTautology g = false.
Proof.
  pose proof (narrowed_no_tautology calls Rule (Forall_nil_2 _)) as Hall.
  rewrite Forall_forall in Hall. apply Hall.
Qed.

(** C7, the claim as stated fails: the non-negated filter with key set
    [{*, 5}] and value set [{*}] is no tautology in the spec's sense (its
    key set is not a pure wildcard), yet [addFilter] does not store it. *)
Lemma mixed_wildcard_filter_not_stored :
  let f := mkFilter [0%N; 5%N] [""] false in
  pureWildcardTautology f = false /\ _filters (addFilter f Rule) = [].
Proof. by simpl. Qed.

(** C7, amended.  [addFilter] leaves the rule untouched exactly for the
    filters that [isTautology] accepts: the non-negated ones whose key set
    contains the wildcard key and whose value set contains the wildcard
    value.  Every filter whose sets are both pure wildcards is among them.
    Every other filter is appended.  Hence a rule built from [Rule()] by
    any sequence of setter calls stores no filter that [isTautology]
    accepts, and none with pure wildcard sets. *)
Theorem addFilter_drops_isTautology (f : Filter.t) (r : Rule.t) :
  (isTautology f = true <->
      _neg f = false /\ 0%N ∈ _keys f /\ "" ∈ _vals f)
  /\ (isTautology f = true -> addFilter f r = r)
  /\ (isTautology f = false -> _filters (addFilter f r) = _filters r ++ [f])
  /\ (pureWildcardTautology f = true -> addFilter f r = r)
  /\ (forall calls g, g ∈ _filters (narrowed Rule calls) ->
        isTautology g = false /\ pureWildcardTautology g = false).
Proof.
  split; [apply isTautology_true|].
  assert (Hdrop : isTautology f = true -> addFilter f r = r).
  { intros Ht. unfold addFilter. by rewrite Ht. }
  repeat split; auto.
  - intros Ht. unfold addFilter. by rewrite Ht.
  - intros Hp. by apply Hdrop, pureWildcardTautology_isTautology.
  - by apply (compiled_no_tautology calls).
  - destruct (pureWildcardTautology g) eqn:Hp; [|done].
    apply pureWildcardTautology_isTautology in Hp.
    by rewrite (compiled_no_tautology calls g) in Hp.
Qed.

Lemma qMax_max (a b : Z) : qMax a b = Z.max a b.
Proof. unfold qMax. destruct (Z.ltb_spec a b); lia. Qed.

Lemma qMin_min (a b : Z) : qMin a b = Z.min a b.
Proof. unfold qMin. destruct (Z.ltb_spec b a); lia. Qed.

Lemma call_zooms (r : Rule.t) (c : Setter) :
  Range.min (_zooms r) <= Range.min (_zooms (call r c))
  /\ Range.max (_zooms (call r c)) <= Range.max (_zooms r).
Proof.
  destruct c as [ty | z | z | cl | f]; simpl;
    rewrite ?qMax_max, ?qMin_min; try lia.
  unfold addFilter. destruct (negb (isTautology f)); simpl; lia.
Qed.

Lemma narrowed_zooms (calls : list Setter) (r : Rule.t) :
  Range.min (_zooms r) <= Range.min (_zooms (narrowed r calls))
  /\ Range.max (_zooms (narrowed r calls)) <= Range.max (_zooms r).
Proof.
  unfold narrowed. revert r.
  induction calls as [|c calls IH]; intros r; simpl; [lia|].
  pose proof (IH (call r c)). pose proof (call_zooms r c). lia.
Qed.

(** C6.  [setMinZoom(z)] sets the minimum to the larger of [z] and the old
    minimum and keeps the maximum; [setMaxZoom(z)] sets the maximum to the
    smaller of [z] and the old maximum and keeps the minimum.  So the
    minimum never decreases, the maximum never increases, the new range
    holds exactly the zooms of the old one that respect the bound, and no
    sequence of setter calls lets a zoom in that the rule excluded before.
    [Rule()] starts with the range [0,127]. *)
Theorem zoom_narrowing (r : Rule.t) (z : Z) :
  (Range.min (_zooms (setMinZoom z r)) = Z.max z (Range.min (_zooms r))
   /\ Range.min (_zooms r) <= Range.min (_zooms (setMinZoom z r))
   /\ Range.max (_zooms (setMinZoom z r)) = Range.max (_zooms r))
  /\ (Range.max (_zooms (setMaxZoom z r)) = Z.min z (Range.max (_zooms r))
      /\ Range.max (_zooms (setMaxZoom z r)) <= Range.max (_zooms r)
      /\ Range.min (_zooms (setMaxZoom z r)) = Range.min (_zooms r))
  /\ (forall x,
        Range.contains (_zooms (setMinZoom z r)) x
        = Range.contains (_zooms r) x && (z <=? x))
  /\ (forall x,
        Range.contains (_zooms (setMaxZoom z r)) x
        = Range.contains (_zooms r) x && (x <=? z))
  /\ (forall calls x,
        Range.contains (_zooms (narrowed r calls)) x = true ->
        Range.contains (_zooms r) x = true)
  /\ _zooms Rule = Range.Range 0 127.
Proof.
  unfold Range.contains. simpl. rewrite qMax_max, qMin_min.
  split; [lia|]. split; [lia|]. split; [|split; [|split; [|done]]].
  - intros x. destruct (Z.leb_spec (Z.max z (Range.min (_zooms r))) x),
      (Z.leb_spec (Range.min (_zooms r)) x), (Z.leb_spec z x),
      (Z.leb_spec x (Range.max (_zooms r))); simpl; try reflexivity; lia.
  - intros x. destruct (Z.leb_spec x (Z.min z (Range.max (_zooms r)))),
      (Z.leb_spec (Range.min (_zooms r)) x), (Z.leb_spec x z),
      (Z.leb_spec x (Range.max (_zooms r))); simpl; try reflexivity; lia.
  - intros calls x Hin. pose proof (narrowed_zooms calls r).
    apply andb_true_iff in Hin as [H1 H2].
    apply Z.leb_le in H1, H2. apply andb_true_iff.
    split; apply Z.leb_le; lia.
Qed.

End RuleClaims.

(** ** Composition of type constraints *)
Section TypeClaims.
Import MapData Rule.

Lemma Type_lor_range (a b : Type_) :
  Type_to_int (Type_of_int (Z.lor (Type_to_int a) (Type_to_int b)))
  = Z.lor (Type_to_int a) (Type_to_int b).
Proof. by destruct a, b. Qed.

Lemma setType_lor (ty : Type_) (r : Rule.t) :
  Type_to_int (_type (setType ty r))
  = Z.lor (Type_to_int ty) (Type_to_int (_type r)).
Proof. apply Type_lor_range. Qed.

(** C2.  A child declared with [WayType] under a parent already narrowed to
    [NodeType] gets the OR of the two constraints, [InvalidType]; with it
    [Rule::match] returns false for a node feature and for a way feature,
    at every zoom, closed state and tag vector. *)
Theorem way_under_node_matches_nothing (parent : Rule.t) (zoom : Z)
    (closed : Closed) (tags : list Tag) :
  _type parent = NodeType ->
  _type (setType WayType parent) = InvalidType
  /\ RuleMatch.match_ (setType WayType parent) zoom NodeType closed tags
     = false
  /\ RuleMatch.match_ (setType WayType parent) zoom WayType closed tags
     = false.
Proof.
  intros Hnode. unfold RuleMatch.match_, setType. simpl. rewrite Hnode. simpl.
  repeat split; by destruct (Range.contains (_zooms parent) zoom).
Qed.

End TypeClaims.

(** ** Ordering of query results *)
Section StyleClaims.
Import MapData Style.

Lemma insertAscending_perm {A : Type} (rank : A -> Z) (x : A) (l : list A) :
  insertAscending rank x l ≡ₚ x :: l.
Proof.
  induction l as [|y l IH]; simpl; [done|].
  destruct (rank x <=? rank y); [done|].
  rewrite IH. apply Permutation_swap.
Qed.

Lemma sortAscending_perm {A : Type} (rank : A -> Z) (l : list A) :
  sortAscending rank l ≡ₚ l.
Proof.
  induction l as [|x l IH]; simpl; [done|].
  by rewrite insertAscending_perm, IH.
Qed.

Lemma insertAscending_sorted {A : Type} (rank : A -> Z) (x : A)
    (l : list A) :
  StronglySorted (fun a b => rank a <= rank b) l ->
  StronglySorted (fun a b => rank a <= rank b) (insertAscending rank x l).
Proof.
  induction 1 as [|y l Hsorted IH Hy]; simpl.
  - repeat constructor.
  - destruct (Z.leb_spec (rank x) (rank y)) as [Hle | Hgt].
    + constructor; [by constructor|].
      constructor; [done|].
      eapply Forall_impl; [exact Hy|]. simpl. intros; lia.
    + constructor; [done|].
      rewrite insertAscending_perm. constructor; [lia | done].
Qed.

Lemma sortAscending_sorted {A : Type} (rank : A -> Z) (l : list A) :
  StronglySorted (fun a b => rank a <= rank b) (sortAscending rank l).
Proof.
  induction l as [|x l IH]; simpl; [constructor|].
  by apply insertAscending_sorted.
Qed.

Lemma scan_elem_of {A : Type} (test : A -> bool) (l : list A) (x : A) :
  x ∈ scan test l <-> x ∈ l /\ test x = true.
Proof.
  induction l as [|y l IH]; simpl.
  - split; [intros H | intros [H _]]; by apply elem_of_nil in H.
  - destruct (test y) eqn:Hy; rewrite ?elem_of_cons, IH, ?elem_of_cons.
    + split; [intros [-> | [? ?]]; auto | intros [[-> | ?] ?]; auto].
    + split; [intros [? ?]; auto | intros [[-> | ?] ?]; [congruence | auto]].
Qed.

(** C4.  [paths(zoom, closed, tags)] returns exactly the path instructions
    whose rule matches the query, each as often as the scan found it, in
    non-decreasing z-order; [pointLabels(zoom)] returns exactly the point
    labels whose rule admits the zoom, in non-decreasing priority. *)
Theorem query_results_ordered (s : Style.t) (zoom : Z) (closed : bool)
    (tags : list Tag) :
  (StronglySorted (fun a b => PathRender.zOrder a <= PathRender.zOrder b)
     (paths s zoom closed tags)
   /\ paths s zoom closed tags
      ≡ₚ scan (fun p =>
                 RuleMatch.match_way (PathRender.rule p) zoom closed tags)
              (_paths s)
   /\ forall p, p ∈ paths s zoom closed tags
        <-> p ∈ _paths s
            /\ RuleMatch.match_way (PathRender.rule p) zoom closed tags
               = true)
  /\ (StronglySorted
        (fun a b => TextRender.priority a <= TextRender.priority b)
        (pointLabels s zoom)
      /\ pointLabels s zoom
         ≡ₚ scan (fun t => RuleMatch.match_zoom (TextRender.rule t) zoom)
                 (_pointLabels s)
      /\ forall t, t ∈ pointLabels s zoom
           <-> t ∈ _pointLabels s
               /\ RuleMatch.match_zoom (TextRender.rule t) zoom = true).
Proof.
  unfold paths, pointLabels. split.
  - split; [apply sortAscending_sorted|].
    split; [apply sortAscending_perm|].
    intros p. by rewrite sortAscending_perm, scan_elem_of.
  - split; [apply sortAscending_sorted|].
    split; [apply sortAscending_perm|].
    intros t. by rewrite sortAscending_perm, scan_elem_of.
Qed.

End StyleClaims.

(** ** Further properties of [Filter::match] *)
Section FilterExtras.
Import MapData Filter.

(** X1.  [Filter::match] in terms of the sets involved.  Call a key hit a
    candidate key that is the wildcard or equals some tag's key, and a value
    hit a declared value that is the wildcard or equals some tag's value,
    the two tags being unrelated.  A non-negated filter matches exactly when
    there is a key hit and a value hit; a negated filter matches exactly
    when there is no key hit or there is a value hit. *)
Theorem match_characterisation (f : Filter.t) (tags : list Tag) :
  let keyHit :=
    exists k tg, k ∈ _keys f /\ tg ∈ tags /\ (k = 0%N \/ k = key tg) in
  let valueHit :=
    exists v tg, v ∈ _vals f /\ tg ∈ tags /\ (v = "" \/ v = value tg) in
  match_ f tags = true
  <-> if _neg f then ~ keyHit \/ valueHit else keyHit /\ valueHit.
Proof.
  intros keyHit valueHit. subst keyHit valueHit.
  pose proof (keyMatches_true f tags) as Hk.
  pose proof (valueMatches_true f tags) as Hv. unfold match_.
  destruct (_neg f), (keyMatches f tags), (valueMatches f tags); simpl;
    intuition congruence.
Qed.

Lemma keyMatches_ext (f g : Filter.t) (tags tags' : list Tag) :
  (forall k, k ∈ _keys f <-> k ∈ _keys g) ->
  (forall tg, tg ∈ tags <-> tg ∈ tags') ->
  keyMatches f tags = keyMatches g tags'.
Proof.
  intros Hkeys Htags. apply eq_true_iff_eq. rewrite !keyMatches_true.
  split; intros (k & tg & Hk & Htg & Hm); exists k, tg;
    (split; [by apply Hkeys | split; [by apply Htags | done]]).
Qed.

Lemma valueMatches_ext (f g : Filter.t) (tags tags' : list Tag) :
  (forall v, v ∈ _vals f <-> v ∈ _vals g) ->
  (forall tg, tg ∈ tags <-> tg ∈ tags') ->
  valueMatches f tags = valueMatches g tags'.
Proof.
  intros Hvals Htags. apply eq_true_iff_eq. rewrite !valueMatches_true.
  split; intros (v & tg & Hv & Htg & Hm); exists v, tg;
    (split; [by apply Hvals | split; [by apply Htags | done]]).
Qed.

(** X2.  [Filter::match] depends only on the negation flag and on the sets
    of keys, of values and of tags: order and repetition in the three lists
    make no difference. *)
Theorem match_depends_on_sets (f g : Filter.t) (tags tags' : list Tag) :
  _neg f = _neg g ->
  (forall k, k ∈ _keys f <-> k ∈ _keys g) ->
  (forall v, v ∈ _vals f <-> v ∈ _vals g) ->
  (forall tg, tg ∈ tags <-> tg ∈ tags') ->
  match_ f tags = match_ g tags'.
Proof.
  intros Hneg Hkeys Hvals Htags. unfold match_.
  by rewrite Hneg, (keyMatches_ext f g tags tags'),
    (valueMatches_ext f g tags tags').
Qed.

(** X3.  A non-negated filter that matches a tag vector matches every tag
    vector that holds at least the same tags. *)
Theorem match_more_tags (f : Filter.t) (tags tags' : list Tag) :
  _neg f = false ->
  (forall tg, tg ∈ tags -> tg ∈ tags') ->
  match_ f tags = true -> match_ f tags' = true.
Proof.
  intros Hneg Hsub. unfold match_. rewrite Hneg, !andb_true_iff.
  rewrite !keyMatches_true, !valueMatches_true.
  intros [(k & tg & Hk & Htg & Hm) (v & tg' & Hv & Htg' & Hm')]. split.
  - exists k, tg. auto.
  - exists v, tg'. auto.
Qed.

(** X4.  Empty sets.  With no candidate key [Filter::match] returns the
    negation flag on every tag vector; with no declared value a non-negated
    filter never matches and a negated one matches exactly when key-match
    fails.  In particular the default-constructed [Filter()] matches
    nothing. *)
Theorem match_empty_sets (f : Filter.t) (tags : list Tag) :
  (_keys f = [] -> match_ f tags = _neg f)
  /\ (_vals f = [] -> match_ f tags = _neg f && negb (keyMatches f tags))
  /\ match_ Filter tags = false.
Proof.
  unfold match_, keyMatches, valueMatches. split; [|split; [|done]].
  - intros ->. simpl. by destruct (_neg f).
  - intros ->. simpl.
    destruct (_neg f), (keyMatches_keys (_keys f) tags); done.
Qed.

Lemma wildcard_key_hit (f : Filter.t) (tags : list Tag) :
  0%N ∈ _keys f -> tags <> [] -> keyMatches f tags = true.
Proof.
  intros Hk Htags. destruct tags as [|tg tags]; [done|].
  apply keyMatches_true. exists 0%N, tg. split; [done|]. split; [left | by left].
Qed.

Lemma wildcard_value_hit (f : Filter.t) (tags : list Tag) :
  "" ∈ _vals f -> tags <> [] -> valueMatches f tags = true.
Proof.
  intros Hv Htags. destruct tags as [|tg tags]; [done|].
  apply valueMatches_true. exists "", tg.
  split; [done|]. split; [left | by left].
Qed.

(** X5.  A wildcard entry absorbs the rest of its set.  On a tag vector
    that is not empty, a key set holding the wildcard makes key-match
    succeed, so the filter returns what value-match says, negated or not;
    a value set holding the wildcard makes value-match succeed, so a
    negated filter matches and a non-negated one returns what key-match
    says. *)
Theorem wildcard_absorbs (f : Filter.t) (tags : list Tag) :
  tags <> [] ->
  (0%N ∈ _keys f ->
     keyMatches f tags = true /\ match_ f tags = valueMatches f tags)
  /\ ("" ∈ _vals f ->
     valueMatches f tags = true
     /\ match_ f tags = _neg f || keyMatches f tags).
Proof.
  intros Htags. unfold match_. split.
  - intros Hk. rewrite (wildcard_key_hit f tags Hk Htags).
    split; [done|]. by destruct (_neg f).
  - intros Hv. rewrite (wildcard_value_hit f tags Hv Htags).
    split; [done|]. by destruct (_neg f), (keyMatches f tags).
Qed.

End FilterExtras.

(** ** Further properties of the [Rule] setters *)
Section RuleExtras.
Import MapData Filter Rule.

Lemma isTautology_match (f : Filter.t) (tags : list Tag) :
  isTautology f = true -> tags <> [] -> match_ f tags = true.
Proof.
  intros Ht Htags. apply isTautology_true in Ht as (Hneg & Hk & Hv).
  unfold match_.
  by rewrite Hneg, (wildcard_key_hit f tags Hk Htags),
    (wildcard_value_hit f tags Hv Htags).
Qed.

(** X6.  Dropping tautologies does not change what a rule's filters accept
    on a tag vector that is not empty: all filters stored after
    [addFilter(f)] match such a vector exactly when all filters stored
    before do and [f] does. *)
Theorem addFilter_keeps_conjunction (f : Filter.t) (r : Rule.t)
    (tags : list Tag) :
  tags <> [] ->
  Forall (fun g => match_ g tags = true) (_filters (addFilter f r))
  <-> Forall (fun g => match_ g tags = true) (_filters r)
      /\ match_ f tags = true.
Proof.
  intros Htags. unfold addFilter.
  destruct (isTautology f) eqn:Ht; simpl.
  - pose proof (isTautology_match f tags Ht Htags). tauto.
  - rewrite Forall_app, Forall_singleton. tauto.
Qed.

Lemma call_appended (r : Rule.t) (c : Setter) :
  _filters (call r c) = _filters r ++ appended [c].
Proof.
  destruct c as [ty | z | z | cl | f]; simpl; rewrite ?app_nil_r; try done.
  unfold addFilter. destruct (isTautology f); simpl; by rewrite ?app_nil_r.
Qed.

Lemma appended_cons (c : Setter) (calls : list Setter) :
  appended (c :: calls) = appended [c] ++ appended calls.
Proof.
  destruct c as [ty | z | z | cl | f]; simpl; try done.
  by destruct (isTautology f).
Qed.

(** X7.  Filters accumulate.  After any sequence of setter calls a rule
    holds the filters it held before, in the same order, followed by the
    non-tautological filters passed to [addFilter], in call order; so a rule
    narrowed from a parent keeps all of the parent's filters as a prefix of
    its own. *)
Theorem filters_accumulate (r : Rule.t) (calls : list Setter) :
  _filters (narrowed r calls) = _filters r ++ appended calls
  /\ _filters r `prefix_of` _filters (narrowed r calls)
  /\ (forall f, f ∈ _filters r -> f ∈ _filters (narrowed r calls)).
Proof.
  assert (Heq : _filters (narrowed r calls) = _filters r ++ appended calls).
  { unfold narrowed. revert r.
    induction calls as [|c calls IH]; intros r.
    - simpl. by rewrite app_nil_r.
    - cbn [fold_left]. rewrite IH, call_appended, (appended_cons c calls).
      by rewrite <- app_assoc. }
  rewrite Heq. split; [done|]. split.
  - by apply prefix_app_r.
  - intros f Hf. apply elem_of_app. by left.
Qed.

(** X8.  Type constraints compose by bitwise OR.  [setType] always yields
    one of the four enumerators, whose value is the OR of the two values;
    calls commute and repeating one changes nothing; [AnyType] changes
    nothing; [InvalidType] absorbs, and so does a rule already at
    [InvalidType]; [NodeType] and [WayType] together give [InvalidType],
    whichever comes first. *)
Theorem setType_algebra (a b : Type_) (r : Rule.t) :
  Type_to_int (_type (setType a r))
  = Z.lor (Type_to_int a) (Type_to_int (_type r))
  /\ setType a (setType b r) = setType b (setType a r)
  /\ setType a (setType a r) = setType a r
  /\ setType AnyType r = r
  /\ _type (setType InvalidType r) = InvalidType
  /\ (_type r = InvalidType -> _type (setType a r) = InvalidType)
  /\ _type (setType NodeType (setType WayType Rule)) = InvalidType
  /\ _type (setType WayType (setType NodeType Rule)) = InvalidType.
Proof.
  destruct r as [ty cl zs fs]. unfold setType. simpl.
  repeat split;
    first [ destruct a, b, ty; reflexivity
          | intros ->; destruct a; reflexivity ].
Qed.

(** X9.  Closed constraints compose the same way.  [setClosed] yields the
    enumerator whose value is the OR of the two values; calls commute and
    repeating one changes nothing; [AnyClosed] changes nothing;
    [InvalidClosed] absorbs; [YesClosed] and [NoClosed] together give
    [InvalidClosed]; and the type, the zoom range and the filters are left
    alone. *)
Theorem setClosed_algebra (a b : Closed) (r : Rule.t) :
  Closed_to_int (_closed (setClosed a r))
  = Z.lor (Closed_to_int a) (Closed_to_int (_closed r))
  /\ setClosed a (setClosed b r) = setClosed b (setClosed a r)
  /\ setClosed a (setClosed a r) = setClosed a r
  /\ setClosed AnyClosed r = r
  /\ _closed (setClosed InvalidClosed r) = InvalidClosed
  /\ (_closed r = InvalidClosed -> _closed (setClosed a r) = InvalidClosed)
  /\ _closed (setClosed YesClosed (setClosed NoClosed Rule)) = InvalidClosed
  /\ _closed (setClosed NoClosed (setClosed YesClosed Rule)) = InvalidClosed
  /\ (_type (setClosed a r) = _type r /\ _zooms (setClosed a r) = _zooms r
      /\ _filters (setClosed a r) = _filters r).
Proof.
  destruct r as [ty cl zs fs]. unfold setClosed. simpl.
  repeat split;
    first [ destruct a, b, cl; reflexivity
          | intros ->; destruct a; reflexivity ].
Qed.

Lemma call_keeps_bits (r : Rule.t) (c : Setter) :
  Z.land (Type_to_int (_type r)) (Type_to_int (_type (call r c)))
  = Type_to_int (_type r)
  /\ Z.land (Closed_to_int (_closed r)) (Closed_to_int (_closed (call r c)))
     = Closed_to_int (_closed r).
Proof.
  destruct r as [ty cl zs fs].
  destruct c as [a | z | z | a | f]; simpl;
    try (unfold addFilter; destruct (negb (isTautology f)); simpl);
    try destruct a; destruct ty, cl; by split.
Qed.

Lemma Type_bits_trans (a b c : Type_) :
  Z.land (Type_to_int a) (Type_to_int b) = Type_to_int a ->
  Z.land (Type_to_int b) (Type_to_int c) = Type_to_int b ->
  Z.land (Type_to_int a) (Type_to_int c) = Type_to_int a.
Proof. destruct a, b, c; cbv; intros; congruence. Qed.

Lemma Closed_bits_trans (a b c : Closed) :
  Z.land (Closed_to_int a) (Closed_to_int b) = Closed_to_int a ->
  Z.land (Closed_to_int b) (Closed_to_int c) = Closed_to_int b ->
  Z.land (Closed_to_int a) (Closed_to_int c) = Closed_to_int a.
Proof. destruct a, b, c; cbv; intros; congruence. Qed.

(** X10.  No sequence of setter calls re-widens a constraint: every bit set
    in a rule's type or closed constraint is still set afterwards.  So a
    rule at [InvalidType] or [InvalidClosed] stays there, and a rule that
    ends at [AnyType] or [AnyClosed] started there. *)
Theorem narrowed_never_widens (r : Rule.t) (calls : list Setter) :
  (Z.land (Type_to_int (_type r)) (Type_to_int (_type (narrowed r calls)))
   = Type_to_int (_type r)
   /\ Z.land (Closed_to_int (_closed r))
             (Closed_to_int (_closed (narrowed r calls)))
      = Closed_to_int (_closed r))
  /\ (_type r = InvalidType -> _type (narrowed r calls) = InvalidType)
  /\ (_closed r = InvalidClosed ->
      _closed (narrowed r calls) = InvalidClosed)
  /\ (_type (narrowed r calls) = AnyType -> _type r = AnyType)
  /\ (_closed (narrowed r calls) = AnyClosed -> _closed r = AnyClosed).
Proof.
  assert (Hbits :
    Z.land (Type_to_int (_type r)) (Type_to_int (_type (narrowed r calls)))
    = Type_to_int (_type r)
    /\ Z.land (Closed_to_int (_closed r))
              (Closed_to_int (_closed (narrowed r calls)))
       = Closed_to_int (_closed r)).
  { unfold narrowed. revert r.
    induction calls as [|c calls IH]; intros r.
    - simpl. by destruct (_type r), (_closed r).
    - cbn [fold_left]. destruct (IH (call r c)) as [IHt IHc].
      destruct (call_keeps_bits r c) as [Ht Hc]. split.
      + exact (Type_bits_trans _ _ _ Ht IHt).
      + exact (Closed_bits_trans _ _ _ Hc IHc). }
  split; [exact Hbits|]. destruct Hbits as [Ht Hc].
  repeat split; intros Heq; rewrite Heq in *.
  - by destruct (_type (narrowed r calls)).
  - by destruct (_closed (narrowed r calls)).
  - by destruct (_type r).
  - by destruct (_closed r).
Qed.

(** X11.  Zoom bounds compose.  Two [setMinZoom] calls act like one with
    the larger bound, two [setMaxZoom] calls like one with the smaller
    bound, in either order; a [setMinZoom] and a [setMaxZoom] commute; and
    a bound that does not narrow ([zoom] at or below the minimum, at or
    above the maximum) leaves the range as it is. *)
Theorem zoom_setters_compose (a b : Z) (r : Rule.t) :
  setMinZoom a (setMinZoom b r) = setMinZoom (Z.max a b) r
  /\ setMaxZoom a (setMaxZoom b r) = setMaxZoom (Z.min a b) r
  /\ setMinZoom a (setMaxZoom b r) = setMaxZoom b (setMinZoom a r)
  /\ (a <= Range.min (_zooms r) -> _zooms (setMinZoom a r) = _zooms r)
  /\ (Range.max (_zooms r) <= a -> _zooms (setMaxZoom a r) = _zooms r).
Proof.
  destruct r as [ty cl [lo hi] fs]. unfold setMinZoom, setMaxZoom. simpl.
  rewrite !qMax_max, !qMin_min. unfold Range.setMin, Range.setMax. simpl.
  repeat split.
  - do 2 f_equal. lia.
  - do 2 f_equal. lia.
  - intros Hle. f_equal. lia.
  - intros Hle. f_equal. lia.
Qed.

(** X12.  The order of two setter calls does not matter, unless both are
    [addFilter] calls that store their filter (whose order the filter list
    records). *)
Theorem calls_commute (r : Rule.t) (c1 c2 : Setter) :
  (forall f g, c1 = AddFilter f -> c2 = AddFilter g ->
     isTautology f = true \/ isTautology g = true) ->
  call (call r c1) c2 = call (call r c2) c1.
Proof.
  intros Hfilters. destruct r as [ty cl [lo hi] fs].
  destruct c1 as [a | a | a | a | f], c2 as [b | b | b | b | g]; simpl;
    unfold setType, setClosed, setMinZoom, setMaxZoom, addFilter; simpl;
    rewrite ?qMax_max, ?qMin_min;
    try (destruct (isTautology f) eqn:Hf); try (destruct (isTautology g) eqn:Hg);
    simpl; try reflexivity.
  - destruct a, b, ty; reflexivity.
  - unfold Range.setMin. simpl. do 2 f_equal. lia.
  - unfold Range.setMax. simpl. do 2 f_equal. lia.
  - destruct a, b, cl; reflexivity.
  - destruct (Hfilters f g eq_refl eq_refl); congruence.
Qed.

End RuleExtras.

(** ** Instances at concrete inputs *)
Section Witnesses.
Import MapData Filter Rule.

Lemma wildcard_filter_match_witness :
  let f := mkFilter [7%N; 0%N] ["a"; ""] false in
  let tags := [mkTag 3%N "b"] in
  0%N ∈ _keys f /\ "" ∈ _vals f
  /\ (tags <> [] -> match_ f tags = true) /\ match_ f [] = _neg f.
Proof.
  simpl.
  assert (Hk : 0%N ∈ [7%N; 0%N]) by (right; left).
  assert (Hv : "" ∈ ["a"; ""]) by (right; left).
  split; [exact Hk|]. split; [exact Hv|].
  exact (wildcard_filter_match (mkFilter [7%N; 0%N] ["a"; ""] false)
           [mkTag 3%N "b"] Hk Hv).
Defined.

Lemma way_under_node_matches_nothing_witness :
  let parent := setType NodeType Rule in
  _type parent = NodeType
  /\ _type (setType WayType parent) = InvalidType
  /\ RuleMatch.match_ (setType WayType parent) 12 NodeType AnyClosed
       [mkTag 3%N "b"] = false
  /\ RuleMatch.match_ (setType WayType parent) 12 WayType AnyClosed
       [mkTag 3%N "b"] = false.
Proof.
  simpl. split; [reflexivity|].
  exact (way_under_node_matches_nothing (setType NodeType Rule) 12 AnyClosed
           [mkTag 3%N "b"] eq_refl).
Defined.

Lemma negated_key_hit_value_miss_witness :
  let f := mkFilter [3%N] ["no"; "false"] true in
  let tags := [mkTag 3%N "yes"; mkTag 8%N "primary"] in
  _neg f = true
  /\ (exists k tg, k ∈ _keys f /\ tg ∈ tags /\ (k = 0%N \/ k = key tg))
  /\ (forall v tg, v ∈ _vals f -> tg ∈ tags -> v <> "" /\ v <> value tg)
  /\ keyMatches f tags = true /\ valueMatches f tags = false
  /\ match_ f tags = false.
Proof.
  simpl.
  assert (Hkey : exists k tg, k ∈ [3%N]
            /\ tg ∈ [mkTag 3%N "yes"; mkTag 8%N "primary"]
            /\ (k = 0%N \/ k = key tg)).
  { exists 3%N, (mkTag 3%N "yes"). split; [left|]. split; [left|]. by right. }
  assert (Hval : forall v tg, v ∈ ["no"; "false"] ->
            tg ∈ [mkTag 3%N "yes"; mkTag 8%N "primary"] ->
            v <> "" /\ v <> value tg).
  { intros v tg Hv Htg.
    apply elem_of_cons in Hv as [-> | Hv];
      [|apply list_elem_of_singleton in Hv as ->];
      (apply elem_of_cons in Htg as [-> | Htg];
       [|apply list_elem_of_singleton in Htg as ->]); by simpl. }
  split; [reflexivity|]. split; [exact Hkey|]. split; [exact Hval|].
  exact (negated_key_hit_value_miss (mkFilter [3%N] ["no"; "false"] true)
           [mkTag 3%N "yes"; mkTag 8%N "primary"] eq_refl Hkey Hval).
Defined.

Lemma negated_key_miss_witness :
  let f := mkFilter [3%N] ["no"] true in
  let tags := [mkTag 8%N "primary"] in
  _neg f = true
  /\ (forall k tg, k ∈ _keys f -> tg ∈ tags -> k <> 0%N /\ k <> key tg)
  /\ match_ f tags = true.
Proof.
  simpl.
  assert (Hmiss : forall k tg, k ∈ [3%N] -> tg ∈ [mkTag 8%N "primary"] ->
            k <> 0%N /\ k <> key tg).
  { intros k tg Hk Htg.
    apply list_elem_of_singleton in Hk as ->.
    apply list_elem_of_singleton in Htg as ->. by simpl. }
  split; [reflexivity|]. split; [exact Hmiss|].
  exact (negated_key_miss (mkFilter [3%N] ["no"] true)
           [mkTag 8%N "primary"] eq_refl Hmiss).
Defined.

(** A [.GPX] file whose parser fails at line 7: only the entry under
    ["gpx"] is tried, although the ["csv"] parser would accept the file. *)
Lemma Data_suffix_dispatch_witness :
  let failing : Data.Parser (Trackpoint := Sample.Pt) (Waypoint := Sample.Pt)
                  (Area := unit) :=
    Data.mkParser
      (fun _ pd => Data.mkParseResult false pd 7 "not well-formed") in
  let accepting : Data.Parser :=
    Data.mkParser (fun _ pd => Data.mkParseResult true pd 0 "") in
  let st :=
    Data.mkStatics
      (QMap.insert "gpx" failing (QMap.insert "csv" accepting QMap.empty))
      false in
  let open := fun _ : QString => Opened "<gpx" in
  let out :=
    Data.Data (Track := nat) (Route := nat) Sample.DEM_elevation
      (fun td => length td) (fun rd => length rd)
      Sample.suffix Sample.toLower st open "Ride.GPX" false in
  open "Ride.GPX" = Opened "<gpx"
  /\ QMap.find (Sample.toLower (Sample.suffix "Ride.GPX")) (Data._parsers st)
     = Some failing
  /\ out.2 = ["gpx"] /\ Data._valid out.1 = false
  /\ Data._errorLine out.1 = 7
  /\ Data._errorString out.1 = "not well-formed".
Proof.
  intros failing accepting st open out.
  assert (Hopen : open "Ride.GPX" = Opened "<gpx") by reflexivity.
  assert (Hfind :
    QMap.find (Sample.toLower (Sample.suffix "Ride.GPX")) (Data._parsers st)
    = Some failing) by reflexivity.
  destruct (Data.Data_suffix_dispatch Sample.DEM_elevation
              (fun td => length td) (fun rd => length rd)
              Sample.suffix Sample.toLower st open "Ride.GPX" false)
    as [Hopened _].
  destruct (Hopened "<gpx" Hopen) as [Hsome _].
  destruct (Hsome failing Hfind) as (Hlog & Hvalid & Herr).
  destruct (Herr eq_refl) as [Hline Hmsg].
  repeat split; assumption.
Defined.

(** A track point that has an elevation is kept while [_useDEM] is off,
    even where the DEM has a value. *)
Lemma processData_keeps_elevation_witness :
  let p := Sample.mkPt (1, 1) (S754_finite false 3 5) in
  let st : Data.Statics (Trackpoint := Sample.Pt) (Waypoint := Sample.Pt)
             (Area := unit) := Data.mkStatics QMap.empty false in
  let d := Data.mkData false 0 "" [] [] [] [] in
  let out :=
    Data.processData (Track := nat) (Route := nat) Sample.DEM_elevation
      (fun td => length td) (fun rd => length rd) st [[[p]]] [] d in
  (hasElevation p = true /\ Data._useDEM st = false)
  /\ exists track' segment',
       out.1.1 !! 0%nat = Some track' /\ track' !! 0%nat = Some segment'
       /\ segment' !! 0%nat = Some p.
Proof.
  intros p st d out.
  assert (Hkeep : hasElevation p = true /\ Data._useDEM st = false)
    by (split; reflexivity).
  split; [exact Hkeep|].
  pose (none := Data.mkParser (Trackpoint := Sample.Pt)
                 (Waypoint := Sample.Pt) (Area := unit)
                 (fun _ pd => Data.mkParseResult false pd 0 "")).
  destruct (Data.processData_keeps_elevation Sample.DEM_elevation
              (fun td => length td) (fun rd => length rd)
              none none none none none none none none none none none none
              none none none none none false st [[[p]]] [] d)
    as [Htracks _].
  exact (Htracks 0%nat 0%nat 0%nat [[p]] [p] p eq_refl eq_refl eq_refl
           (or_introl Hkeep)).
Defined.

End Witnesses.

(** ** Instances of the further properties at concrete inputs *)
Section ExtraWitnesses.
Import MapData Filter Rule.

Lemma match_depends_on_sets_witness :
  let f := mkFilter [3%N; 0%N] ["a"; "b"] true in
  let g := mkFilter [0%N; 3%N; 3%N] ["b"; "a"] true in
  let tags := [mkTag 3%N "c"; mkTag 8%N "a"] in
  let tags' := [mkTag 8%N "a"; mkTag 3%N "c"; mkTag 8%N "a"] in
  _neg f = _neg g
  /\ (forall k, k ∈ _keys f <-> k ∈ _keys g)
  /\ (forall v, v ∈ _vals f <-> v ∈ _vals g)
  /\ (forall tg, tg ∈ tags <-> tg ∈ tags')
  /\ match_ f tags = match_ g tags'.
Proof.
  intros f g tags tags'.
  assert (Hkeys : forall k, k ∈ _keys f <-> k ∈ _keys g).
  { intros k. simpl. rewrite !elem_of_cons, !elem_of_nil. tauto. }
  assert (Hvals : forall v, v ∈ _vals f <-> v ∈ _vals g).
  { intros v. simpl. rewrite !elem_of_cons, !elem_of_nil. tauto. }
  assert (Htags : forall tg, tg ∈ tags <-> tg ∈ tags').
  { intros tg. unfold tags, tags'. rewrite !elem_of_cons, !elem_of_nil.
    tauto. }
  split; [reflexivity|]. split; [exact Hkeys|]. split; [exact Hvals|].
  split; [exact Htags|].
  exact (match_depends_on_sets f g tags tags' eq_refl Hkeys Hvals Htags).
Defined.

Lemma match_more_tags_witness :
  let f := mkFilter [3%N] ["yes"] false in
  let tags := [mkTag 3%N "yes"] in
  let tags' := [mkTag 9%N "x"; mkTag 3%N "yes"] in
  _neg f = false
  /\ (forall tg, tg ∈ tags -> tg ∈ tags')
  /\ match_ f tags = true
  /\ match_ f tags' = true.
Proof.
  intros f tags tags'.
  assert (Hsub : forall tg, tg ∈ tags -> tg ∈ tags').
  { intros tg Htg. apply list_elem_of_singleton in Htg. subst tg.
    right. left. }
  split; [reflexivity|]. split; [exact Hsub|]. split; [reflexivity|].
  exact (match_more_tags f tags tags' eq_refl Hsub eq_refl).
Defined.

Lemma wildcard_absorbs_witness :
  let f := mkFilter [4%N; 0%N] ["a"] true in
  let tags := [mkTag 1%N "b"] in
  tags <> []
  /\ (0%N ∈ _keys f ->
      keyMatches f tags = true /\ match_ f tags = valueMatches f tags)
  /\ ("" ∈ _vals f ->
      valueMatches f tags = true
      /\ match_ f tags = _neg f || keyMatches f tags).
Proof.
  intros f tags.
  assert (Htags : tags <> []) by discriminate.
  split; [exact Htags|]. exact (wildcard_absorbs f tags Htags).
Defined.

Lemma addFilter_keeps_conjunction_witness :
  let f := mkFilter [0%N; 5%N] [""] false in
  let r := addFilter (mkFilter [1%N] ["b"] false) Rule in
  let tags := [mkTag 1%N "b"] in
  tags <> []
  /\ (Forall (fun g => match_ g tags = true) (_filters (addFilter f r))
      <-> Forall (fun g => match_ g tags = true) (_filters r)
          /\ match_ f tags = true).
Proof.
  intros f r tags.
  assert (Htags : tags <> []) by discriminate.
  split; [exact Htags|]. exact (addFilter_keeps_conjunction f r tags Htags).
Defined.

Lemma calls_commute_witness :
  let r := setMinZoom 8 Rule in
  let c1 := SetType WayType in
  let c2 := AddFilter (mkFilter [3%N] ["primary"] false) in
  (forall f g, c1 = AddFilter f -> c2 = AddFilter g ->
     isTautology f = true \/ isTautology g = true)
  /\ call (call r c1) c2 = call (call r c2) c1.
Proof.
  intros r c1 c2.
  assert (Hfilters : forall f g, c1 = AddFilter f -> c2 = AddFilter g ->
            isTautology f = true \/ isTautology g = true)
    by (intros f g Hc1; discriminate Hc1).
  split; [exact Hfilters|]. exact (calls_commute r c1 c2 Hfilters).
Defined.

(** A [.txt] file: the suffix is not registered, the ["csv"] parser
    rejects the file without touching the containers and the ["gpx"]
    parser accepts it. *)
Lemma Data_fallback_first_success_witness :
  let rejecting : Data.Parser (Trackpoint := Sample.Pt)
                    (Waypoint := Sample.Pt) (Area := unit) :=
    Data.mkParser
      (fun _ pd => Data.mkParseResult false pd 1 "no header") in
  let accepting : Data.Parser :=
    Data.mkParser
      (fun _ pd =>
         Data.mkParseResult true
           (Data.mkParsed
              [[[Sample.mkPt (1, 1) S754_nan]]] [] []
              [Sample.mkPt (2, 2) S754_nan])
           0 "") in
  let st := Data.mkStatics [("csv", rejecting); ("gpx", accepting)] false in
  let open := fun _ : QString => Opened "<gpx" in
  let build st :=
    Data.Data (Track := nat) (Route := nat) Sample.DEM_elevation
      (fun td => length td) (fun rd => length rd)
      Sample.suffix Sample.toLower st open "notes.TXT" false in
  open "notes.TXT" = Opened "<gpx"
  /\ QMap.find (Sample.toLower (Sample.suffix "notes.TXT")) (Data._parsers st)
     = None
  /\ Data._parsers st = [("csv", rejecting)] ++ ("gpx", accepting) :: []
  /\ (forall k q, (k, q) ∈ [("csv", rejecting)] ->
        Data.ok (Data.parse q "<gpx" Data.Parsed_init) = false
        /\ Data.parsed (Data.parse q "<gpx" Data.Parsed_init)
           = Data.Parsed_init)
  /\ Data.ok (Data.parse accepting "<gpx" Data.Parsed_init) = true
  /\ (build st).2 = ["csv"; "gpx"]
  /\ Data._valid (build st).1 = true
  /\ forall st',
       Data._useDEM st' = Data._useDEM st ->
       QMap.find (Sample.toLower (Sample.suffix "notes.TXT"))
         (Data._parsers st') = Some accepting ->
       (build st').1 = (build st).1.
Proof.
  intros rejecting accepting st open build.
  assert (Hclean : forall k q, (k, q) ∈ [("csv", rejecting)] ->
            Data.ok (Data.parse q "<gpx" Data.Parsed_init) = false
            /\ Data.parsed (Data.parse q "<gpx" Data.Parsed_init)
               = Data.Parsed_init).
  { intros k q Hin. apply list_elem_of_singleton in Hin.
    injection Hin as -> ->. split; reflexivity. }
  split; [reflexivity|]. split; [reflexivity|]. split; [reflexivity|].
  split; [exact Hclean|]. split; [reflexivity|].
  exact (Data.Data_fallback_first_success Sample.DEM_elevation
           (fun td => length td) (fun rd => length rd)
           Sample.suffix Sample.toLower st open "notes.TXT" false "<gpx"
           [("csv", rejecting)] [] "gpx" accepting
           eq_refl eq_refl eq_refl Hclean eq_refl).
Defined.

(** A [.gpx] file whose parser delivers one track of one point and one
    waypoint. *)
Lemma Data_direct_dispatch_contents_witness :
  let accepting : Data.Parser (Trackpoint := Sample.Pt)
                    (Waypoint := Sample.Pt) (Area := unit) :=
    Data.mkParser
      (fun _ pd =>
         Data.mkParseResult true
           (Data.mkParsed
              [[[Sample.mkPt (1, 1) S754_nan]]] [] [tt]
              [Sample.mkPt (2, 2) S754_nan])
           0 "") in
  let st := Data.mkStatics [("gpx", accepting)] false in
  let open := fun _ : QString => Opened "<gpx" in
  let d :=
    (Data.Data (Track := nat) (Route := nat) Sample.DEM_elevation
       (fun td => length td) (fun rd => length rd)
       Sample.suffix Sample.toLower st open "ride.gpx" false).1 in
  open "ride.gpx" = Opened "<gpx"
  /\ QMap.find (Sample.toLower (Sample.suffix "ride.gpx")) (Data._parsers st)
     = Some accepting
  /\ Data.ok (Data.parse accepting "<gpx" Data.Parsed_init) = true
  /\ Data._polygons d = [tt]
  /\ length (Data._waypoints d) = 1%nat
  /\ length (Data._tracks d) = 1%nat
  /\ length (Data._routes d) = 0%nat.
Proof.
  intros accepting st open d.
  destruct (Data.Data_direct_dispatch_contents Sample.DEM_elevation
              (fun td => length td) (fun rd => length rd)
              Sample.suffix Sample.toLower st open "ride.gpx" false "<gpx"
              accepting eq_refl eq_refl)
    as (Hpoly & Hway & Hok & _).
  destruct (Hok eq_refl) as (Htracks & Hroutes & _).
  split; [reflexivity|]. split; [reflexivity|]. split; [reflexivity|].
  split; [exact Hpoly|]. split; [exact Hway|].
  split; [exact Htracks | exact Hroutes].
Defined.

End ExtraWitnesses.
